(** * Service aggregation and reconciliation pipeline

    A shallow embedding of the refugee-assistance service pipeline:
    the client aggregator ([src/lib/services.ts]: [retryFetch],
    [searchServices]), the Places edge function
    ([supabase/functions/google-places/index.ts]), the OSM edge function
    ([supabase/functions/osm-lookup/index.ts]) and the [services] table
    as the migrations declare it.

    Part I holds the embedding, Part II its properties. *)

From Stdlib Require Import QArith Qminmax Qpower.
From stdpp Require Import base decidable option list sorting strings pretty gmap sets.

Local Open Scope string_scope.
Local Open Scope list_scope.
Local Open Scope nat_scope.

(** * Part I: the embedding *)

(** ** First-seen-wins deduplication

    [searchNearbyPlaces] keeps a [Set] of the place ids it has met and
    filters each category's results through it:
<<
    const uniquePlaces = data.results.filter((place) => {
      if (seenPlaceIds.has(place.place_id)) return false;
      seenPlaceIds.add(place.place_id);
      return true;
    });
>>
    The set outlives one filter call (it is shared by the categories of
    one search), so the embedding threads it. *)

Module Dedup.
Section dedupe.
Context {A K : Type} `{Countable K}.
Variable key : A → K.

Fixpoint dedupe (seen : gset K) (items : list A) : list A * gset K :=
  match items with
  | [] => ([], seen)
  | x :: rest =>
      if decide (key x ∈ seen) then dedupe seen rest
      else
        let '(kept, seen') := dedupe ({[key x]} ∪ seen) rest in
        (x :: kept, seen')
  end.

(** The items kept, starting from an empty set of seen keys. *)
Definition dedupe_fresh (items : list A) : list A := (dedupe ∅ items).1.

(** [first_with_key items j x]: [x] sits at index [j] and no earlier
    item carries its key. *)
Definition first_with_key (items : list A) (j : nat) (x : A) : Prop :=
  items !! j = Some x ∧
  ∀ j' y, j' < j → items !! j' = Some y → key y ≠ key x.

End dedupe.
End Dedup.

(** ** JavaScript values

    Request bodies are parsed JSON; a field the body lacks destructures
    to [undefined]. *)

Module Js.

Inductive JsValue : Type :=
| JUndefined
| JNull
| JBool (b : bool)
| JNumber (q : Q)
| JString (s : string)
| JArray (items : list JsValue)
| JObject (fields : list (string * JsValue)).

(** [typeof v] *)
Definition typeof (v : JsValue) : string :=
  match v with
  | JUndefined => "undefined"
  | JNull => "object"
  | JBool _ => "boolean"
  | JNumber _ => "number"
  | JString _ => "string"
  | JArray _ => "object"
  | JObject _ => "object"
  end.

(** Truthiness, as [&&], [||], [!] and [if] test it. (JSON has no NaN.) *)
Definition truthy (v : JsValue) : bool :=
  match v with
  | JUndefined | JNull => false
  | JBool b => b
  | JNumber q => negb (Qeq_bool q 0)
  | JString s => negb (bool_decide (s = ""))
  | JArray _ | JObject _ => true
  end.

Fixpoint assoc (k : string) (fields : list (string * JsValue)) : JsValue :=
  match fields with
  | [] => JUndefined
  | (k', v) :: rest => if decide (k = k') then v else assoc k rest
  end.

(** [v.k] for a value that is neither [undefined] nor [null]: a field
    the value lacks reads as [undefined]. *)
Definition get (v : JsValue) (k : string) : JsValue :=
  match v with
  | JObject fields => assoc k fields
  | _ => JUndefined
  end.

(** [a || b] *)
Definition or (a b : JsValue) : JsValue := if truthy a then a else b.

(** [a || b] on strings that may be absent: the empty string is falsy. *)
Definition or_string (a b : option string) : option string :=
  match a with
  | Some s => if decide (s = "") then b else Some s
  | None => b
  end.

(** [a || ''] *)
Definition or_empty (a : option string) : string :=
  default "" (or_string a (Some "")).

End Js.

(** ** The resilient fetch client

    The three copies of [retryFetch] share one loop:
<<
    let lastError = null;
    for (let i = 0; i < retries; i++) {
      try { ...attempt...; return response; }
      catch (error) {
        lastError = error instanceof Error ? error : new Error('Unknown error occurred');
        if (i === retries - 1) break;
        await new Promise(resolve => setTimeout(resolve, delay));
      }
    }
    throw lastError;
>>
    The loop is written once, over the monad its attempts and sleeps run
    in, and recurses on the number of iterations left
    ([remaining = retries - i]). *)

Module Retry.

Record Response := { ok : bool; status : nat; body : string }.

(** What a [catch] clause receives: an [Error] or some other value. *)
Inductive Thrown : Type :=
| ErrorObject (message : string)
| OtherValue.

(** [error instanceof Error ? error : new Error('Unknown error occurred')],
    an [Error] being represented by its message. *)
Definition toError (t : Thrown) : string :=
  match t with
  | ErrorObject m => m
  | OtherValue => "Unknown error occurred"
  end.

(** How a call ends: with the response, or by [throw lastError]
    ([lastError] is still [null] when the loop never ran). *)
Inductive RetryResult (R : Type) : Type :=
| Returned (r : R)
| Threw (lastError : option string).
Arguments Returned {R} r.
Arguments Threw {R} lastError.

Section loop.
Context {M : Type → Type} `{MRet M, MBind M} {R : Type}.
Variable attempt : nat → M (Thrown + R).
Variable sleep : nat → M unit.
Variable retries : nat.

Fixpoint retryLoop (remaining i : nat) (lastError : option string)
  : M (RetryResult R) :=
  match remaining with
  | 0 => mret (Threw lastError)
  | S remaining' =>
      r ← attempt i;
      match r with
      | inr response => mret (Returned response)
      | inl error =>
          let lastError := Some (toError error) in
          if decide (i = retries - 1) then mret (Threw lastError)
          else _ ← sleep i; retryLoop remaining' (S i) lastError
      end
  end.

End loop.

(** What one call does, in order: the requests it issues and the time
    it sleeps (milliseconds). *)
Inductive Event : Type :=
| EvFetch (attempt : nat)
| EvSleep (ms : Q).

Definition Traced (A : Type) : Type := list Event * A.

#[global] Instance traced_ret : MRet Traced := λ A a, ([], a).
#[global] Instance traced_bind : MBind Traced :=
  λ A B f m, let '(t1, a) := m in let '(t2, b) := f a in (t1 ++ t2, b).

(** The outcome of the [i]-th [fetch] call. *)
Inductive FetchOutcome : Type :=
| FetchRejected (t : Thrown)
| FetchResolved (r : Response).

Definition fetches (t : list Event) : list nat :=
  omap (λ e, match e with EvFetch i => Some i | EvSleep _ => None end) t.

Definition sleeps (t : list Event) : list Q :=
  omap (λ e, match e with EvSleep d => Some d | EvFetch _ => None end) t.

Definition Qsum (l : list Q) : Q := foldr Qplus 0%Q l.

(** The trace of a call that goes from attempt [i] to a last attempt
    [m]: each attempt before the last is followed by its sleep. *)
Definition traceTo {R : Type} (attempt : nat → Traced (Thrown + R))
  (delay : nat → Q) (i m : nat) : list Event :=
  flat_map (λ j, (attempt j).1 ++ [EvSleep (delay j)]) (seq i (m - i))
  ++ (attempt m).1.

(** The client's copy ([src/lib/services.ts]). *)
Module Client.
Section client.
Variable url : string.
Variable supabaseUrl : option string.
Variable fetch : nat → FetchOutcome.
(** [random i]: the value of [Math.random()] drawn after attempt [i]. *)
Variable random : nat → Q.
Variable backoff : Q.

Definition capDelay : Q := 5000.

Definition httpError (r : Response) : Thrown :=
  ErrorObject ("HTTP error! status: " +:+ pretty (status r)
               +:+ ", body: " +:+ body r).

Definition attempt (i : nat) : Traced (Thrown + Response) :=
  if decide (url = "") then ([], inl (ErrorObject "URL is undefined"))
  else if decide (Js.or_string supabaseUrl None = None)
  then ([], inl (ErrorObject "Supabase URL is not configured"))
  else ([EvFetch i],
        match fetch i with
        | FetchRejected t => inl t
        | FetchResolved r => if ok r then inr r else inl (httpError r)
        end).

Definition jitter (i : nat) : Q := random i * 1000.

(** [Math.min(backoff * Math.pow(2, i) + jitter, 5000)] *)
Definition delay (i : nat) : Q :=
  Qmin (backoff * 2 ^ Z.of_nat i + jitter i) capDelay.

Definition sleep (i : nat) : Traced unit := ([EvSleep (delay i)], tt).

Definition retryFetch (retries : nat) : Traced (RetryResult Response) :=
  retryLoop attempt sleep retries retries 0 None.

End client.
End Client.

(** The edge functions' copy ([google-places/index.ts]; the one of
    [osm-lookup/index.ts] differs in the text of the HTTP error only). *)
Module Edge.
Section edge.
Variable fetch : nat → FetchOutcome.

Definition httpError (r : Response) : Thrown :=
  ErrorObject ("HTTP error! status: " +:+ pretty (status r)
               +:+ ", body: " +:+ body r).

Definition attempt (i : nat) : Traced (Thrown + Response) :=
  ([EvFetch i],
   match fetch i with
   | FetchRejected t => inl t
   | FetchResolved r => if ok r then inr r else inl (httpError r)
   end).

(** [Math.pow(2, i) * 1000] *)
Definition delay (i : nat) : Q := 2 ^ Z.of_nat i * 1000.

Definition sleep (i : nat) : Traced unit := ([EvSleep (delay i)], tt).

Definition retryFetch (retries : nat) : Traced (RetryResult Response) :=
  retryLoop attempt sleep retries retries 0 None.

End edge.
End Edge.

End Retry.

(** ** The [services] table

    Columns and constraints as the migrations leave them:
    - [id uuid primary key default gen_random_uuid()] (a fresh identity,
      drawn here from a counter);
    - [name], [type], [address], [latitude], [longitude], [phone],
      [email], [hours], [languages], [description]: [NOT NULL];
    - [type] is one of the six service types;
    - [created_by] is nullable, [source] defaults to ['manual'];
    - [services_osm_id_key UNIQUE (osm_id)],
      [services_google_place_id_key UNIQUE (google_place_id)];
    - [check_external_ids].
    The two [BEFORE INSERT OR UPDATE] triggers are left out: one derives
    the [geom] column from the coordinates, the other normalises
    [languages], and [['en']], the only value the refresh functions
    write, is already normal. A statement fails exactly when it
    violates a constraint, and a failed statement changes nothing. *)

Module Db.

Record Row := {
  id : nat;
  name : string;
  type : string;
  address : string;
  latitude : Q;
  longitude : Q;
  phone : string;
  email : string;
  website : option string;
  hours : string;
  languages : list string;
  description : string;
  created_by : option string;
  created_at : nat;
  updated_at : nat;
  osm_id : option string;
  source : string;
  google_place_id : option string;
  country : option string
}.

Record Store := { rows : list Row; next_id : nat }.

Inductive DbError : Type :=
| NotNullViolation (column : string)
| CheckViolation (constraint : string)
| UniqueViolation (constraint : string)
| CardinalityViolation.

(** The [message] of a failed statement. *)
Definition message (e : DbError) : string :=
  match e with
  | NotNullViolation c =>
      "null value in column " +:+ c +:+ " violates not-null constraint"
  | CheckViolation c =>
      "new row for relation services violates check constraint " +:+ c
  | UniqueViolation c =>
      "duplicate key value violates unique constraint " +:+ c
  | CardinalityViolation =>
      "ON CONFLICT DO UPDATE command cannot affect row a second time"
  end.

Definition service_types : list string :=
  ["clinic"; "shelter"; "legal"; "food"; "education"; "other"].

(** [CHECK (type IN ('clinic', 'shelter', 'legal', 'food', 'education', 'other'))] *)
Definition type_check (r : Row) : bool :=
  bool_decide (type r ∈ service_types).

(** [check_external_ids] *)
Definition check_external_ids (r : Row) : bool :=
  (bool_decide (source r = "OSM") && bool_decide (osm_id r ≠ None))
  || (bool_decide (source r = "GooglePlaces")
      && bool_decide (google_place_id r ≠ None))
  || bool_decide (source r = "manual").

(** A unique column admits any number of NULLs. *)
Definition unique_ok (col : Row → option string) (r : Row) (table : list Row)
  : bool :=
  match col r with
  | None => true
  | Some v => bool_decide (Forall (λ r', col r' ≠ Some v) table)
  end.

(** The checks a row undergoes when it enters the table. *)
Definition insert_checks (table : list Row) (r : Row) : option DbError :=
  if negb (type_check r) then Some (CheckViolation "services_type_check")
  else if negb (check_external_ids r)
  then Some (CheckViolation "check_external_ids")
  else if negb (unique_ok osm_id r table)
  then Some (UniqueViolation "services_osm_id_key")
  else if negb (unique_ok google_place_id r table)
  then Some (UniqueViolation "services_google_place_id_key")
  else None.

(** [.delete().eq('source', 'OSM').eq('country', country)] *)
Definition is_osm_of (c : string) (r : Row) : bool :=
  bool_decide (source r = "OSM") && bool_decide (country r = Some c).

Definition delete_osm (c : string) (st : Store) : Store :=
  {| rows := filter (λ r, is_osm_of c r = false) (rows st);
     next_id := next_id st |}.

(** [.insert(rows)]: one statement. A row is given as the function
    from its fresh [id] to the row. *)
Fixpoint insert_rows (new : list (nat → Row)) (st : Store)
  : DbError + Store :=
  match new with
  | [] => inr st
  | mk :: rest =>
      let r := mk (next_id st) in
      match insert_checks (rows st) r with
      | Some e => inl e
      | None =>
          insert_rows rest {| rows := rows st ++ [r];
                              next_id := S (next_id st) |}
      end
  end.

(** [.upsert(rows, { onConflict: 'google_place_id', ignoreDuplicates: false })]:
    [INSERT ... ON CONFLICT (google_place_id) DO UPDATE SET] every column
    of the payload. A payload row comes as the row it inserts (from the
    fresh id), and as the update it makes to the row it conflicts with.
    Its constraints are checked before the conflict is looked for; a
    statement may not touch a row twice. *)
Record Upsert := {
  conflict_key : string;
  not_null : option DbError;
  inserted : nat → Row;
  updated : Row → Row
}.

Definition has_place_id (k : string) (r : Row) : bool :=
  bool_decide (google_place_id r = Some k).

Definition upsert_one (u : Upsert) (touched : gset string) (st : Store)
  : DbError + (gset string * Store) :=
  match not_null u with
  | Some e => inl e
  | None =>
      let candidate := inserted u (next_id st) in
      if negb (type_check candidate)
      then inl (CheckViolation "services_type_check")
      else if negb (check_external_ids candidate)
      then inl (CheckViolation "check_external_ids")
      else if decide (conflict_key u ∈ touched) then inl CardinalityViolation
      else if existsb (has_place_id (conflict_key u)) (rows st)
      then inr ({[conflict_key u]} ∪ touched,
                {| rows := (λ r, if has_place_id (conflict_key u) r
                                 then updated u r else r) <$> rows st;
                   next_id := next_id st |})
      else if negb (unique_ok osm_id candidate (rows st))
      then inl (UniqueViolation "services_osm_id_key")
      else inr ({[conflict_key u]} ∪ touched,
                {| rows := rows st ++ [candidate];
                   next_id := S (next_id st) |})
  end.

Fixpoint upsert_rows (us : list Upsert) (touched : gset string) (st : Store)
  : DbError + Store :=
  match us with
  | [] => inr st
  | u :: rest =>
      match upsert_one u touched st with
      | inl e => inl e
      | inr (touched', st') => upsert_rows rest touched' st'
      end
  end.

(** The statements the edge functions issue. *)
Inductive Stmt : Type :=
| DeleteOsm (country : string)
| Insert (new : list (nat → Row))
| UpsertByPlaceId (us : list Upsert).

Definition exec (s : Stmt) (st : Store) : DbError + Store :=
  match s with
  | DeleteOsm c => inr (delete_osm c st)
  | Insert new => insert_rows new st
  | UpsertByPlaceId us => upsert_rows us ∅ st
  end.

(** A program over the store: it ends with a result, or issues a
    statement and goes on according to the statement's outcome. An
    edge function runs its statements one at a time, each awaited. *)
Inductive Prog (R : Type) : Type :=
| Ret (r : R)
| Exec (s : Stmt) (k : option DbError → Prog R).
Arguments Ret {R} r.
Arguments Exec {R} s k.

Fixpoint bind {A B : Type} (f : A → Prog B) (p : Prog A) : Prog B :=
  match p with
  | Ret a => f a
  | Exec s k => Exec s (λ e, bind f (k e))
  end.

#[global] Instance prog_ret : MRet Prog := @Ret.
#[global] Instance prog_bind : MBind Prog := @bind.

(** A program run alone. *)
Fixpoint run {R : Type} (p : Prog R) (st : Store) : R * Store :=
  match p with
  | Ret r => (r, st)
  | Exec s k =>
      match exec s st with
      | inl e => run (k (Some e)) st
      | inr st' => run (k None) st'
      end
  end.

(** Two programs run concurrently: their statements interleave. *)
Inductive par_step {A B : Type}
  : Store * Prog A * Prog B → Store * Prog A * Prog B → Prop :=
| step_left_ok st st' s k q :
    exec s st = inr st' → par_step (st, Exec s k, q) (st', k None, q)
| step_left_err st e s k q :
    exec s st = inl e → par_step (st, Exec s k, q) (st, k (Some e), q)
| step_right_ok st st' s k p :
    exec s st = inr st' → par_step (st, p, Exec s k) (st', p, k None)
| step_right_err st e s k p :
    exec s st = inl e → par_step (st, p, Exec s k) (st, p, k (Some e)).

(** [par_run st p q a b st']: some interleaving of [p] and [q] from
    [st] ends with results [a] and [b] in store [st']. *)
Definition par_run {A B : Type} (st : Store) (p : Prog A) (q : Prog B)
  (a : A) (b : B) (st' : Store) : Prop :=
  rtc par_step (st, p, q) (st', Ret a, Ret b).


(** Rows users own, and the invariant that they carry no place id. *)
Definition is_manual (r : Row) : bool := bool_decide (source r = "manual").

Definition manual_rows (st : Store) : list Row :=
  filter (λ r, is_manual r = true) (rows st).

Definition manual_without_place_id (st : Store) : Prop :=
  Forall (λ r, is_manual r = true → google_place_id r = None) (rows st).

(** [keepsManual st0 st]: the rows users own are in [st] what they
    were in [st0]. *)
Definition keepsManual (st0 st : Store) : Prop :=
  manual_rows st = manual_rows st0 ∧ manual_without_place_id st.

(** [issues P p]: every statement [p] may issue satisfies [P]. *)
Inductive issues {R : Type} (P : Stmt → Prop) : Prog R → Prop :=
| issues_ret r : issues P (Ret r)
| issues_exec s k : P s → (∀ e, issues P (k e)) → issues P (Exec s k).

(** [returns Q p]: every result [p] may end with satisfies [Q]. *)
Inductive returns {R : Type} (Q : R → Prop) : Prog R → Prop :=
| returns_ret r : Q r → returns Q (Ret r)
| returns_exec s k : (∀ e, returns Q (k e)) → returns Q (Exec s k).

End Db.

(** ** The OSM edge function ([supabase/functions/osm-lookup/index.ts]) *)

Module Osm.

Module Tags.
Record t := {
  name : option string;
  amenity : option string;
  social_facility : option string;
  healthcare : option string;
  office : option string;
  addr_full : option string;
  phone : option string;
  email : option string;
  website : option string;
  opening_hours : option string;
  contact_phone : option string;
  contact_email : option string
}.
End Tags.

Module Element.
Record t := { id : Z; type : string; lat : Q; lon : Q; tags : Tags.t }.
End Element.

(** The records [fetchOsmServices] returns. *)
Module Service.
Record t := {
  osm_id : string;
  name : string;
  type : string;
  address : string;
  latitude : Q;
  longitude : Q;
  phone : string;
  email : string;
  website : string;
  hours : string;
  source : string;
  country : string
}.
End Service.

Definition has_value (tag : option string) (v : string) : bool :=
  bool_decide (tag = Some v).

Definition mapOsmTypeToServiceType (tags : Tags.t) : option string :=
  if has_value (Tags.healthcare tags) "clinic" || has_value (Tags.healthcare tags) "doctor"
  then Some "clinic"
  else if has_value (Tags.social_facility tags) "shelter" then Some "shelter"
  else if has_value (Tags.amenity tags) "social_facility"
          && has_value (Tags.social_facility tags) "food_bank"
  then Some "food"
  else if has_value (Tags.amenity tags) "social_facility"
          && has_value (Tags.social_facility tags) "refugee_site"
  then Some "shelter"
  else if has_value (Tags.amenity tags) "school"
          || has_value (Tags.amenity tags) "language_school"
  then Some "education"
  else if has_value (Tags.office tags) "ngo"
          || has_value (Tags.amenity tags) "social_facility"
  then Some "other"
  else None.

Definition toService (country : string) (element : Element.t) : Service.t :=
  let tags := Element.tags element in
  {| Service.osm_id := Element.type element +:+ "/" +:+ pretty (Element.id element);
     Service.name := default "Unnamed Service"
                       (Js.or_string (Tags.name tags) None);
     Service.type := default "other"
                       (Js.or_string (mapOsmTypeToServiceType tags) None);
     Service.address := Js.or_empty (Tags.addr_full tags);
     Service.latitude := Element.lat element;
     Service.longitude := Element.lon element;
     Service.phone := Js.or_empty (Js.or_string (Tags.phone tags)
                                                (Tags.contact_phone tags));
     Service.email := Js.or_empty (Js.or_string (Tags.email tags)
                                                (Tags.contact_email tags));
     Service.website := Js.or_empty (Tags.website tags);
     Service.hours := Js.or_empty (Tags.opening_hours tags);
     Service.source := "OSM";
     Service.country := country |}.

(** The OSM ids the records made of [elements] carry. *)
Definition osm_ids (country : string) (elements : list Element.t)
  : list string :=
  (λ e, Service.osm_id (toService country e)) <$> elements.

(** What the Overpass request (under [retryFetch]) and the parsing of
    its body come to. *)
Inductive Overpass : Type :=
| OverpassFailed (message : string)
| OverpassData (elements : list Element.t).

Definition fetchOsmServices (country : string) (overpass : Overpass)
  : string + list Service.t :=
  match overpass with
  | OverpassFailed m => inl ("Failed to fetch OSM data: " +:+ m)
  | OverpassData elements => inr (toService country <$> elements)
  end.

Inductive Response : Type :=
| Ok200 (count : nat) (services : list Service.t)
| Err500 (error : string).

(** The row the handler inserts for a service; [now] is the clock
    reading of [new Date()]. *)
Definition toRow (now : nat) (service : Service.t) (id : nat) : Db.Row :=
  {| Db.id := id;
     Db.name := Service.name service;
     Db.type := Service.type service;
     Db.address := Service.address service;
     Db.latitude := Service.latitude service;
     Db.longitude := Service.longitude service;
     Db.phone := Service.phone service;
     Db.email := Service.email service;
     Db.website := Some (Service.website service);
     Db.hours := Service.hours service;
     Db.languages := ["en"];
     Db.description :=
       "Service data from OpenStreetMap: " +:+ Service.name service;
     Db.created_by := None;
     Db.created_at := now;
     Db.updated_at := now;
     Db.osm_id := Some (Service.osm_id service);
     Db.source := Service.source service;
     Db.google_place_id := None;
     Db.country := Some (Service.country service) |}.

(** The replace-by-country refresh of the handler. *)
Definition replaceByCountry (country : string) (now : nat)
  (osmServices : list Service.t) : Db.Prog Response :=
  if decide (0 < length osmServices) then
    Db.Exec (Db.DeleteOsm country) (λ deleteError,
      match deleteError with
      | Some e =>
          Db.Ret (Err500 ("Failed to clean up existing OSM services: "
                          +:+ Db.message e))
      | None =>
          Db.Exec (Db.Insert (toRow now <$> osmServices)) (λ insertError,
            match insertError with
            | Some e =>
                Db.Ret (Err500 ("Failed to insert OSM services: "
                                +:+ Db.message e))
            | None => Db.Ret (Ok200 (length osmServices) osmServices)
            end)
      end)
  else Db.Ret (Ok200 (length osmServices) osmServices).

(** The handler, for a [POST] whose body carries [country]. *)
Definition serve (country : string) (overpass : Overpass) (now : nat)
  : Db.Prog Response :=
  if decide (country = "") then Db.Ret (Err500 "Country is required")
  else
    match fetchOsmServices country overpass with
    | inl m => Db.Ret (Err500 m)
    | inr osmServices => replaceByCountry country now osmServices
    end.

End Osm.

(** ** The Places edge function ([supabase/functions/google-places/index.ts]) *)

Module Places.

(** A place as the code reads it: the summary of a nearby-search
    result, overlaid with its details where they were fetched. *)
Module Place.
Record t := {
  place_id : string;
  name : string;
  vicinity : option string;
  formatted_address : option string;
  geometry : option (Q * Q);
  formatted_phone_number : option string;
  international_phone_number : option string;
  website : option string;
  opening_hours : option (option (list string));
  country : option string
}.
End Place.

(** The [result] of a details call, with the fields the call asks for. *)
Module Details.
Record t := {
  name : option string;
  formatted_address : option string;
  formatted_phone_number : option string;
  website : option string;
  opening_hours : option (option (list string));
  geometry : option (Q * Q);
  international_phone_number : option string
}.
End Details.

(** The rows sent to the store. *)
Module FormattedPlace.
Record t := {
  name : string;
  type : string;
  address : option string;
  latitude : Q;
  longitude : Q;
  phone : string;
  email : string;
  website : string;
  hours : string;
  google_place_id : string;
  source : string;
  country : option string;
  languages : list string;
  description : string;
  created_at : nat;
  updated_at : nat
}.
End FormattedPlace.

(** The entries of the [typeMapping] object. *)
Definition typeMapping (type : string) : option (list string) :=
  if decide (type = "clinic") then Some ["hospital"; "doctor"; "health"]
  else if decide (type = "shelter")
  then Some ["lodging"; "local_government_office"]
  else if decide (type = "legal") then Some ["lawyer"]
  else if decide (type = "food") then Some ["food_bank"; "meal_delivery"]
  else if decide (type = "education") then Some ["school"; "university"]
  else if decide (type = "other") then Some ["point_of_interest"]
  else None.

(** [typeMapping] is a plain object: for these keys [typeMapping[type]]
    reads a member inherited from [Object.prototype] (a function, or
    the prototype itself), not [undefined]. *)
Definition inheritedKeys : list string :=
  ["constructor"; "toString"; "toLocaleString"; "valueOf"; "hasOwnProperty";
   "isPrototypeOf"; "propertyIsEnumerable"; "__proto__";
   "__defineGetter__"; "__defineSetter__"; "__lookupGetter__";
   "__lookupSetter__"].

(** [typeMapping[type] || ['point_of_interest']]: the array of an
    entry, the default for a key the object does not know, and for an
    inherited key the inherited member, which is truthy and cannot be
    iterated ([None]). *)
Definition placeTypesFor (type : string) : option (list string) :=
  match typeMapping type with
  | Some placeTypes => Some placeTypes
  | None =>
      if decide (type ∈ inheritedKeys) then None
      else Some ["point_of_interest"]
  end.

(** What a nearby-search and a details request (each under
    [retryFetch]) come to. *)
Inductive Nearby : Type :=
| NearbyFailed
| NearbyData (status : string) (results : option (list Place.t)).

Inductive DetailsData : Type :=
| DetailsFailed
| DetailsBody (status : string) (result : option Details.t).

(** The provider, as the handler meets it during one request. *)
Record GoogleApi := {
  geocode : Js.JsValue → Js.JsValue → string + string;
  nearbysearch : Js.JsValue → Js.JsValue → Js.JsValue → string → Nearby;
  details : string → DetailsData
}.

(** [getCountryFromCoordinates]: the country, or the error thrown. *)
Definition getCountryFromCoordinates (api : GoogleApi) (lat lng : Js.JsValue)
  : string + string := geocode api lat lng.

(** [getPlaceDetails] catches every failure and answers [null]. *)
Definition getPlaceDetails (api : GoogleApi) (placeId : string)
  : option Details.t :=
  match details api placeId with
  | DetailsBody status (Some result) =>
      if decide (status = "OK") then Some result else None
  | _ => None
  end.

Definition override {A : Type} (d p : option A) : option A :=
  match d with Some x => Some x | None => p end.

(** [{ ...place, ...details, country }]; [...null] adds nothing. *)
Definition withDetails (place : Place.t) (details : option Details.t)
  (country : string) : Place.t :=
  match details with
  | None =>
      {| Place.place_id := Place.place_id place;
         Place.name := Place.name place;
         Place.vicinity := Place.vicinity place;
         Place.formatted_address := Place.formatted_address place;
         Place.geometry := Place.geometry place;
         Place.formatted_phone_number := Place.formatted_phone_number place;
         Place.international_phone_number :=
           Place.international_phone_number place;
         Place.website := Place.website place;
         Place.opening_hours := Place.opening_hours place;
         Place.country := Some country |}
  | Some d =>
      {| Place.place_id := Place.place_id place;
         Place.name := default (Place.name place) (Details.name d);
         Place.vicinity := Place.vicinity place;
         Place.formatted_address :=
           override (Details.formatted_address d)
                    (Place.formatted_address place);
         Place.geometry := override (Details.geometry d) (Place.geometry place);
         Place.formatted_phone_number :=
           override (Details.formatted_phone_number d)
                    (Place.formatted_phone_number place);
         Place.international_phone_number :=
           override (Details.international_phone_number d)
                    (Place.international_phone_number place);
         Place.website := override (Details.website d) (Place.website place);
         Place.opening_hours :=
           override (Details.opening_hours d) (Place.opening_hours place);
         Place.country := Some country |}
  end.

(** The body of the [uniquePlaces.map] callback. [getPlaceDetails]
    never throws, so the callback's own [catch] (which would return the
    bare [place]) is not reached, every promise is fulfilled and the
    filter on fulfilled promises keeps them all. *)
Definition enrich (api : GoogleApi) (country : string) (place : Place.t)
  : Place.t :=
  withDetails place (getPlaceDetails api (Place.place_id place)) country.

(** The loop over the place types; [seenPlaceIds] is threaded. *)
Fixpoint searchPlaceTypes (api : GoogleApi) (lat lng radius : Js.JsValue)
  (country : string) (placeTypes : list string) (seenPlaceIds : gset string)
  : list Place.t :=
  match placeTypes with
  | [] => []
  | placeType :: rest =>
      match nearbysearch api lat lng radius placeType with
      | NearbyData status (Some results) =>
          if decide (status = "OK") then
            let '(uniquePlaces, seenPlaceIds') :=
              Dedup.dedupe Place.place_id seenPlaceIds results in
            (enrich api country <$> uniquePlaces)
            ++ searchPlaceTypes api lat lng radius country rest seenPlaceIds'
          else searchPlaceTypes api lat lng radius country rest seenPlaceIds
      | _ => searchPlaceTypes api lat lng radius country rest seenPlaceIds
      end
  end.

(** The places [searchPlaceTypes] sends to enrichment: the same loop
    without the details calls. *)
Fixpoint uniquePlaces (api : GoogleApi) (lat lng radius : Js.JsValue)
  (placeTypes : list string) (seenPlaceIds : gset string) : list Place.t :=
  match placeTypes with
  | [] => []
  | placeType :: rest =>
      match nearbysearch api lat lng radius placeType with
      | NearbyData status (Some results) =>
          if decide (status = "OK") then
            let '(unique, seenPlaceIds') :=
              Dedup.dedupe Place.place_id seenPlaceIds results in
            unique ++ uniquePlaces api lat lng radius rest seenPlaceIds'
          else uniquePlaces api lat lng radius rest seenPlaceIds
      | _ => uniquePlaces api lat lng radius rest seenPlaceIds
      end
  end.

(** The results a category contributes to the search: those of an
    [OK] answer, nothing otherwise. *)
Definition okResults (api : GoogleApi) (lat lng radius : Js.JsValue)
  (placeType : string) : list Place.t :=
  match nearbysearch api lat lng radius placeType with
  | NearbyData status (Some results) =>
      if decide (status = "OK") then results else []
  | _ => []
  end.

(** The provider [api], except that the details call for place [k]
    fails. *)
Definition withDetailsFailing (k : string) (api : GoogleApi) : GoogleApi :=
  {| geocode := geocode api;
     nearbysearch := nearbysearch api;
     details := λ placeId,
       if decide (placeId = k) then DetailsFailed else details api placeId |}.

(** A place reduced to its summary, tagged with the country. *)
Definition summaryOnly (country : string) (summary enriched : Place.t) : Prop :=
  Place.place_id enriched = Place.place_id summary ∧
  Place.name enriched = Place.name summary ∧
  Place.vicinity enriched = Place.vicinity summary ∧
  Place.formatted_address enriched = Place.formatted_address summary ∧
  Place.geometry enriched = Place.geometry summary ∧
  Place.formatted_phone_number enriched
  = Place.formatted_phone_number summary ∧
  Place.international_phone_number enriched
  = Place.international_phone_number summary ∧
  Place.website enriched = Place.website summary ∧
  Place.opening_hours enriched = Place.opening_hours summary ∧
  Place.country enriched = Some country.

(** The country lookup comes before the loop, outside any [try]: its
    error is thrown. So is the [TypeError] of a [for ... of] over a
    value that is not iterable. *)
Definition searchNearbyPlaces (api : GoogleApi) (location : Js.JsValue)
  (type : string) (radius : Js.JsValue) : string + list Place.t :=
  let placeTypes := placeTypesFor type in
  let lat := Js.get location "lat" in
  let lng := Js.get location "lng" in
  match getCountryFromCoordinates api lat lng with
  | inl e => inl e
  | inr country =>
      match placeTypes with
      | None => inl "placeTypes is not iterable"
      | Some placeTypes =>
          inr (searchPlaceTypes api lat lng radius country placeTypes ∅)
      end
  end.

(** [String(hours.join('; '))] *)
Fixpoint join (sep : string) (l : list string) : string :=
  match l with
  | [] => ""
  | [s] => s
  | s :: rest => s +:+ sep +:+ join sep rest
  end.

(** One step of [places.map(place => ({ ... }))]; reading
    [place.geometry.location] of a place without geometry throws. *)
Definition formatPlace (type : string) (now : nat) (place : Place.t)
  : string + FormattedPlace.t :=
  match Place.geometry place with
  | None => inl "Cannot read properties of undefined (reading 'location')"
  | Some (lat, lng) =>
      inr {| FormattedPlace.name := Place.name place;
             FormattedPlace.type := type;
             FormattedPlace.address :=
               Js.or_string (Place.formatted_address place)
                            (Place.vicinity place);
             FormattedPlace.latitude := lat;
             FormattedPlace.longitude := lng;
             FormattedPlace.phone :=
               Js.or_empty
                 (Js.or_string (Place.formatted_phone_number place)
                               (Place.international_phone_number place));
             FormattedPlace.email := "";
             FormattedPlace.website := Js.or_empty (Place.website place);
             FormattedPlace.hours :=
               Js.or_empty (join "; " <$> mjoin (Place.opening_hours place));
             FormattedPlace.google_place_id := Place.place_id place;
             FormattedPlace.source := "GooglePlaces";
             FormattedPlace.country := Place.country place;
             FormattedPlace.languages := ["en"];
             FormattedPlace.description :=
               "Service data from Google Places: " +:+ Place.name place;
             FormattedPlace.created_at := now;
             FormattedPlace.updated_at := now |}
  end.

Fixpoint formatPlaces (type : string) (now : nat) (places : list Place.t)
  : string + list FormattedPlace.t :=
  match places with
  | [] => inr []
  | place :: rest =>
      match formatPlace type now place with
      | inl e => inl e
      | inr f =>
          match formatPlaces type now rest with
          | inl e => inl e
          | inr fs => inr (f :: fs)
          end
      end
  end.

(** The row a formatted place inserts, and the update it makes to the
    row that already carries its place id: the payload has no [id],
    [created_by] or [osm_id], so an insert takes their defaults and an
    update leaves them. *)
Definition insertedRow (f : FormattedPlace.t) (id : nat) : Db.Row :=
  {| Db.id := id;
     Db.name := FormattedPlace.name f;
     Db.type := FormattedPlace.type f;
     Db.address := default "" (FormattedPlace.address f);
     Db.latitude := FormattedPlace.latitude f;
     Db.longitude := FormattedPlace.longitude f;
     Db.phone := FormattedPlace.phone f;
     Db.email := FormattedPlace.email f;
     Db.website := Some (FormattedPlace.website f);
     Db.hours := FormattedPlace.hours f;
     Db.languages := FormattedPlace.languages f;
     Db.description := FormattedPlace.description f;
     Db.created_by := None;
     Db.created_at := FormattedPlace.created_at f;
     Db.updated_at := FormattedPlace.updated_at f;
     Db.osm_id := None;
     Db.source := FormattedPlace.source f;
     Db.google_place_id := Some (FormattedPlace.google_place_id f);
     Db.country := FormattedPlace.country f |}.

Definition updatedRow (f : FormattedPlace.t) (r : Db.Row) : Db.Row :=
  {| Db.id := Db.id r;
     Db.name := FormattedPlace.name f;
     Db.type := FormattedPlace.type f;
     Db.address := default "" (FormattedPlace.address f);
     Db.latitude := FormattedPlace.latitude f;
     Db.longitude := FormattedPlace.longitude f;
     Db.phone := FormattedPlace.phone f;
     Db.email := FormattedPlace.email f;
     Db.website := Some (FormattedPlace.website f);
     Db.hours := FormattedPlace.hours f;
     Db.languages := FormattedPlace.languages f;
     Db.description := FormattedPlace.description f;
     Db.created_by := Db.created_by r;
     Db.created_at := FormattedPlace.created_at f;
     Db.updated_at := FormattedPlace.updated_at f;
     Db.osm_id := Db.osm_id r;
     Db.source := FormattedPlace.source f;
     Db.google_place_id := Some (FormattedPlace.google_place_id f);
     Db.country := FormattedPlace.country f |}.

Definition toUpsert (f : FormattedPlace.t) : Db.Upsert :=
  {| Db.conflict_key := FormattedPlace.google_place_id f;
     Db.not_null :=
       match FormattedPlace.address f with
       | None => Some (Db.NotNullViolation "address")
       | Some _ => None
       end;
     Db.inserted := insertedRow f;
     Db.updated := updatedRow f |}.

Definition batchSize : nat := 10.

(** [array.slice(i, j)] for [i ≤ j] *)
Definition slice {A : Type} (i j : nat) (l : list A) : list A :=
  take (j - i) (drop i l).

(** The batches of
    [for (let i = 0; i < formattedPlaces.length; i += batchSize)]; the
    loop runs at most [length] times. *)
Fixpoint batchesFrom {A : Type} (fuel i : nat) (l : list A) : list (list A) :=
  match fuel with
  | 0 => []
  | S fuel' =>
      if decide (i < length l)
      then slice i (i + batchSize) l :: batchesFrom fuel' (i + batchSize) l
      else []
  end.

Definition batches {A : Type} (l : list A) : list (list A) :=
  batchesFrom (length l) 0 l.

(** The body of the batch loop: the first failed upsert is thrown. *)
Fixpoint upsertBatches (bs : list (list FormattedPlace.t))
  : Db.Prog (option Db.DbError) :=
  match bs with
  | [] => Db.Ret None
  | batch :: rest =>
      Db.Exec (Db.UpsertByPlaceId (toUpsert <$> batch)) (λ upsertError,
        match upsertError with
        | Some e => Db.Ret (Some e)
        | None => upsertBatches rest
        end)
  end.

(** What the upsert of one formatted place does to the table when it
    goes through: the row with its place id is updated where it stands,
    or a row is added. *)
Definition onConflict (f : FormattedPlace.t) (r : Db.Row) : Db.Row :=
  if Db.has_place_id (FormattedPlace.google_place_id f) r
  then updatedRow f r else r.

Definition upserted (st : Db.Store) (f : FormattedPlace.t) : Db.Store :=
  let k := FormattedPlace.google_place_id f in
  if existsb (Db.has_place_id k) (Db.rows st)
  then {| Db.rows := onConflict f <$> Db.rows st;
          Db.next_id := Db.next_id st |}
  else {| Db.rows := Db.rows st ++ [insertedRow f (Db.next_id st)];
          Db.next_id := S (Db.next_id st) |}.

(** The constraint a formatted place violates by itself, if any. *)
Definition payloadError (f : FormattedPlace.t) : option Db.DbError :=
  match Db.not_null (toUpsert f) with
  | Some e => Some e
  | None =>
      if negb (Db.type_check (insertedRow f 0))
      then Some (Db.CheckViolation "services_type_check")
      else if negb (Db.check_external_ids (insertedRow f 0))
      then Some (Db.CheckViolation "check_external_ids")
      else None
  end.

(** The error one batch runs into, if any, given the place ids the
    statement has touched so far. *)
Fixpoint batchError (batch : list FormattedPlace.t) (touched : gset string)
  : option Db.DbError :=
  match batch with
  | [] => None
  | f :: rest =>
      match payloadError f with
      | Some e => Some e
      | None =>
          if decide (FormattedPlace.google_place_id f ∈ touched)
          then Some Db.CardinalityViolation
          else batchError rest ({[FormattedPlace.google_place_id f]} ∪ touched)
      end
  end.

(** The store after the batches [bs] when each of them goes through. *)
Fixpoint commitAll (bs : list (list FormattedPlace.t)) (st : Db.Store)
  : option Db.Store :=
  match bs with
  | [] => Some st
  | batch :: rest =>
      match Db.exec (Db.UpsertByPlaceId (toUpsert <$> batch)) st with
      | inl _ => None
      | inr st' => commitAll rest st'
      end
  end.

(** The upsert-by-place-id refresh of the handler. *)
Definition upsertPlaces (formattedPlaces : list FormattedPlace.t)
  : Db.Prog (option Db.DbError) :=
  if decide (0 < length formattedPlaces)
  then upsertBatches (batches formattedPlaces)
  else Db.Ret None.

(** What the handler's [catch] turns into a 500 response. *)
Inductive Failure : Type :=
| ErrorThrown (message : string)
| UpsertError (e : Db.DbError).

Inductive Response : Type :=
| Ok200 (count : nat) (services : list FormattedPlace.t)
| Err500 (cause : Failure).

(** The parsed request body [{ location, type, radius }]; an absent
    [type] is the empty string. *)
Record Request := {
  location : Js.JsValue;
  type : string;
  radius : Js.JsValue
}.

Definition nullIsland : Js.JsValue :=
  Js.JObject [("lat", Js.JNumber 0); ("lng", Js.JNumber 0)].

Definition wellFormedLocation (location : Js.JsValue) : bool :=
  Js.truthy location
  && bool_decide (Js.typeof location = "object")
  && bool_decide (Js.typeof (Js.get location "lat") = "number")
  && bool_decide (Js.typeof (Js.get location "lng") = "number").

Definition searchLocation (location : Js.JsValue) : Js.JsValue :=
  if wellFormedLocation location then location else nullIsland.

Definition defaultRadius : Js.JsValue := Js.JNumber 50000.

(** The arguments the handler passes to [searchNearbyPlaces], or the
    error it throws before the search. *)
Definition searchArguments (req : Request)
  : string + (Js.JsValue * string * Js.JsValue) :=
  if decide (type req = "") then inl "Service type is required"
  else inr (searchLocation (location req), type req,
            Js.or (radius req) defaultRadius).

(** The handler up to the store: the rows it is about to upsert. *)
Definition formattedPlaces (api : GoogleApi) (req : Request) (now : nat)
  : string + list FormattedPlace.t :=
  match searchArguments req with
  | inl e => inl e
  | inr (location, type, radius) =>
      match searchNearbyPlaces api location type radius with
      | inl e => inl e
      | inr places => formatPlaces type now places
      end
  end.

(** The handler, for a [POST]. *)
Definition serve (api : GoogleApi) (req : Request) (now : nat)
  : Db.Prog Response :=
  match formattedPlaces api req now with
  | inl e => Db.Ret (Err500 (ErrorThrown e))
  | inr places =>
      upsertError ← upsertPlaces places;
      match upsertError with
      | Some e => Db.Ret (Err500 (UpsertError e))
      | None => Db.Ret (Ok200 (length places) places)
      end
  end.

End Places.

(** ** The aggregator ([searchServices], [src/lib/services.ts]) *)

Module Aggregator.

(** [{ ...service, priority, badge }] *)
Record Ranked (S : Type) := { service : S; priority : Z; badge : string }.
Arguments service {S} _.
Arguments priority {S} _.
Arguments badge {S} _.

Record SearchResult (S : Type) := {
  internal : list (Ranked S);
  osm : list (Ranked S);
  google : list (Ranked S);
  error : option string
}.
Arguments internal {S} _.
Arguments osm {S} _.
Arguments google {S} _.
Arguments error {S} _.

(** [Array.prototype.sort(compare)]: a stable sort; [a] stays before
    [b] unless [compare(a, b) > 0]. For a comparator that orders by a
    key, every stable sort returns the same array; it is written here
    as an insertion sort. *)
Section sort.
Context {A : Type}.
Variable compare : A → A → Z.

Fixpoint insert (x : A) (l : list A) : list A :=
  match l with
  | [] => [x]
  | y :: rest =>
      if decide (compare x y ≤ 0)%Z then x :: y :: rest
      else y :: insert x rest
  end.

Definition sort (l : list A) : list A := foldr insert [] l.

End sort.

(** The [{ data, error }] answer of the query on the store. *)
Record DbResponse (S : Type) := {
  data : option (list S);
  dbError : option string
}.
Arguments data {S} _.
Arguments dbError {S} _.

(** What [retryFetch] followed by [response.json()] comes to for one
    edge function: an exception, or the parsed body, whose [services]
    field may be absent. *)
Inductive Lookup (S : Type) : Type :=
| LookupThrew
| LookupJson (services : option (list S)).
Arguments LookupThrew {S}.
Arguments LookupJson {S} services.

(** A settled promise. *)
Inductive Settled (A : Type) : Type :=
| fulfilled (value : A)
| rejected (reason : string).
Arguments fulfilled {A} value.
Arguments rejected {A} reason.

Section searchServices.
Context {S : Type}.

(** The [try]/[catch] around one lookup: [{ services: [] }] on failure. *)
Definition guarded (l : Lookup S) : option (list S) :=
  match l with
  | LookupThrew => Some []
  | LookupJson services => services
  end.

(** [response.status === 'fulfilled' ? response.value : { services: [] }] *)
Definition settledData (r : Settled (option (list S))) : option (list S) :=
  match r with
  | fulfilled value => value
  | rejected _ => Some []
  end.

Definition rank (p : Z) (b : string) (s : S) : Ranked S :=
  {| service := s; priority := p; badge := b |}.

Definition allServices (internalServices osmServices googleServices
  : option (list S)) : list (Ranked S) :=
  (rank 1 "Verified" <$> default [] internalServices)
  ++ (rank 2 "OSM" <$> default [] osmServices)
  ++ (rank 3 "GooglePlaces" <$> default [] googleServices).

Definition byPriority (a b : Ranked S) : Z := (priority a - priority b)%Z.

Definition sortedServices (all : list (Ranked S)) : list (Ranked S) :=
  take 5 (sort byPriority all).

Definition hasPriority (p : Z) (s : Ranked S) : bool :=
  bool_decide (priority s = p).

(** The function, given what its three awaited calls come to. When the
    query on the store fails the function throws before it starts the
    lookups, and its own [catch] answers. *)
Definition searchServices (db : DbResponse S) (osmLookup googleLookup : Lookup S)
  : SearchResult S :=
  match dbError db with
  | Some m =>
      {| internal := []; osm := []; google := [];
         error := Some ("Database error: " +:+ m) |}
  | None =>
      let osmResponse := fulfilled (guarded osmLookup) in
      let googleResponse := fulfilled (guarded googleLookup) in
      let osmData := settledData osmResponse in
      let googleData := settledData googleResponse in
      let sorted := sortedServices (allServices (data db) osmData googleData) in
      {| internal := filter (λ s, hasPriority 1 s = true) sorted;
         osm := filter (λ s, hasPriority 2 s = true) sorted;
         google := filter (λ s, hasPriority 3 s = true) sorted;
         error := None |}
  end.

End searchServices.

(** *** The aggregator on the store

    The records of the three sources. *)
Inductive Service : Type :=
| Internal (row : Db.Row)
| FromOsm (s : Osm.Service.t)
| FromGoogle (p : Places.FormattedPlace.t).

(** What surrounds one call: the client's configuration, whether the
    query on the store fails, and for each attempt of a lookup whether
    the request reaches its edge function (and then what the provider
    answers there) or is lost. *)
Record World := {
  supabaseUrl : option string;
  selectError : option string;
  osmRequest : nat → Retry.Thrown + Osm.Overpass;
  googleRequest : nat → Retry.Thrown + Places.GoogleApi;
  clock : nat
}.

(** No request reaches the edge functions: the client is not
    configured, or each of the three attempts of both lookups is lost. *)
Definition unreachable (w : World) : Prop :=
  Js.or_string (supabaseUrl w) None = None
  ∨ ∀ i, i < 3 → (∃ t, osmRequest w i = inl t)
                 ∧ (∃ t, googleRequest w i = inl t).

(** [.select('*').eq('type', type).eq('country', country).eq('source', 'manual')] *)
Definition selected (type country : string) (r : Db.Row) : bool :=
  bool_decide (Db.type r = type)
  && bool_decide (Db.country r = Some country)
  && bool_decide (Db.source r = "manual").

Definition select (type country : string) (st : Db.Store) : list Db.Row :=
  filter (λ r, selected type country r = true) (Db.rows st).

(** One attempt of the client's [retryFetch] against an edge function:
    the handler runs when the request reaches it, and a 500 answer is an
    HTTP error. (Nothing reads the text of that error; it is abridged.) *)
Definition edgeAttempt {W R B : Type} (w : World)
  (handler : W → Db.Prog R) (body : R → string + B)
  (request : nat → Retry.Thrown + W) (i : nat) : Db.Prog (Retry.Thrown + B) :=
  if decide (Js.or_string (supabaseUrl w) None = None)
  then mret (inl (Retry.ErrorObject "Supabase URL is not configured"))
  else
    match request i with
    | inl t => mret (inl t)
    | inr provider =>
        r ← handler provider;
        match body r with
        | inl e =>
            mret (inl (Retry.ErrorObject
                         ("HTTP error! status: 500, body: " +:+ e)))
        | inr b => mret (inr b)
        end
    end.

Definition edgeLookup {W R : Type} (w : World)
  (handler : W → Db.Prog R) (body : R → string + list Service)
  (request : nat → Retry.Thrown + W) : Db.Prog (Lookup Service) :=
  r ← Retry.retryLoop (edgeAttempt w handler body request)
        (λ _, mret tt) 3 3 0 None;
  match r with
  | Retry.Returned services => mret (LookupJson (Some services))
  | Retry.Threw _ => mret LookupThrew
  end.

Definition osmBody (r : Osm.Response) : string + list Service :=
  match r with
  | Osm.Ok200 _ services => inr (FromOsm <$> services)
  | Osm.Err500 e => inl e
  end.

Definition googleBody (r : Places.Response) : string + list Service :=
  match r with
  | Places.Ok200 _ services => inr (FromGoogle <$> services)
  | Places.Err500 (Places.ErrorThrown e) => inl e
  | Places.Err500 (Places.UpsertError _) => inl "Unknown error"
  end.

(** [body: JSON.stringify({ country })] *)
Definition osmLookup (w : World) (country : string) : Db.Prog (Lookup Service) :=
  edgeLookup w (λ overpass, Osm.serve country overpass (clock w))
    osmBody (osmRequest w).

(** [body: JSON.stringify({ location: userLocation || null, type,
    radius: userLocation ? 5000 : 50000 })] *)
Definition googleRequestBody (type : string) (userLocation : option (Q * Q))
  : Places.Request :=
  match userLocation with
  | Some (lat, lng) =>
      {| Places.location :=
           Js.JObject [("lat", Js.JNumber lat); ("lng", Js.JNumber lng)];
         Places.type := type;
         Places.radius := Js.JNumber 5000 |}
  | None =>
      {| Places.location := Js.JNull;
         Places.type := type;
         Places.radius := Js.JNumber 50000 |}
  end.

Definition googleLookup (w : World) (type : string)
  (userLocation : option (Q * Q)) : Db.Prog (Lookup Service) :=
  edgeLookup w
    (λ api, Places.serve api (googleRequestBody type userLocation) (clock w))
    googleBody (googleRequest w).

(** The statements the two edge functions issue: the deletion of a
    country's OSM rows, the insertion of fetched OSM services and the
    upsert of formatted places. *)
Definition lookupStmt (s : Db.Stmt) : Prop :=
  match s with
  | Db.DeleteOsm _ => True
  | Db.Insert new =>
      ∃ now country elements,
        new = Osm.toRow now <$> (Osm.toService country <$> elements)
  | Db.UpsertByPlaceId us =>
      ∃ fs, us = Places.toUpsert <$> fs ∧
            Forall (λ f, Places.FormattedPlace.source f = "GooglePlaces") fs
  end.

(** One call of [searchServices] from store [st]: its result and the
    store it leaves. The two lookups run concurrently. *)
Inductive searchServicesRun (w : World) (type country : string)
  (userLocation : option (Q * Q)) (st : Db.Store)
  : SearchResult Service → Db.Store → Prop :=
| run_select_failed m :
    selectError w = Some m →
    searchServicesRun w type country userLocation st
      (searchServices {| data := None; dbError := Some m |}
         LookupThrew LookupThrew) st
| run_lookups o g st' :
    selectError w = None →
    Db.par_run st (osmLookup w country) (googleLookup w type userLocation)
      o g st' →
    searchServicesRun w type country userLocation st
      (searchServices
         {| data := Some (Internal <$> select type country st);
            dbError := None |} o g) st'.

End Aggregator.

(** ** Location detection ([detectLocation], [src/lib/services.ts]) *)

Module Location.

(** The body of the [get-location] function's answer, at the fields
    the client reads; [success] is the truthiness of the field. *)
Module Body.
Record t := {
  success : bool;
  error : option string;
  details : option string;
  country : option string
}.
End Body.

Record Result := { country : string; error : option string }.

(** The first source. [countryIs] is what [retryFetch] on
    [api.country.is] followed by [response.json()] and the read of
    [data.country] come to; [restCountries code] is the same for the
    country-name service, up to the read of [countryData?.name?.common].
    Any exception there is caught and leads to the fallback. *)
Definition countryIsLookup (countryIs : Retry.Thrown + option string)
  (restCountries : string → Retry.Thrown + option string) : option string :=
  match countryIs with
  | inl _ => None
  | inr data_country =>
      match Js.or_string data_country None with
      | None => None
      | Some code =>
          match restCountries code with
          | inl _ => None
          | inr common => Js.or_string common None
          end
      end
  end.

(** The fallback: reverse geocoding by the [get-location] function. *)
Definition reverseGeocode (answer : Retry.Thrown + Body.t)
  : Retry.Thrown + string :=
  match answer with
  | inl t => inl t
  | inr data =>
      if negb (Body.success data)
         || bool_decide (Js.or_string (Body.error data) None ≠ None)
      then inl (Retry.ErrorObject
                  (default "Location detection failed"
                     (Js.or_string
                        (Js.or_string (Body.details data) (Body.error data))
                        None)))
      else
        match Js.or_string (Body.country data) None with
        | None => inl (Retry.ErrorObject "No country information received")
        | Some c => inr c
        end
  end.

(** The body of the outer [try]: the country, or what is thrown. *)
Definition locate (position : Retry.Thrown + (Q * Q))
  (supabaseUrl supabaseAnonKey : option string)
  (countryIs : Retry.Thrown + option string)
  (restCountries : string → Retry.Thrown + option string)
  (getLocation : Q → Q → Retry.Thrown + Body.t) : Retry.Thrown + string :=
  match position with
  | inl t => inl t
  | inr (latitude, longitude) =>
      if decide (Js.or_string supabaseUrl None = None)
      then inl (Retry.ErrorObject "Supabase URL is not configured")
      else if decide (Js.or_string supabaseAnonKey None = None)
      then inl (Retry.ErrorObject "Supabase anonymous key is not configured")
      else
        match countryIsLookup countryIs restCountries with
        | Some c => inr c
        | None => reverseGeocode (getLocation latitude longitude)
        end
  end.

Definition detectLocation (position : Retry.Thrown + (Q * Q))
  (supabaseUrl supabaseAnonKey : option string)
  (countryIs : Retry.Thrown + option string)
  (restCountries : string → Retry.Thrown + option string)
  (getLocation : Q → Q → Retry.Thrown + Body.t) : Result :=
  match locate position supabaseUrl supabaseAnonKey countryIs restCountries
               getLocation with
  | inr c => {| country := c; error := None |}
  | inl (Retry.ErrorObject m) =>
      {| country := "";
         error := Some ("Unable to detect location automatically: " +:+ m
                        +:+ ". Please select your country manually.") |}
  | inl Retry.OtherValue =>
      {| country := "";
         error := Some "Location detection failed. Please select your country manually." |}
  end.

End Location.

(** ** The unified lookup ([supabase/functions/unified-lookup/index.ts]) *)

Module Unified.

Module ExternalService.
Record t := {
  name : option string;
  type : option string;
  address : option string;
  phone : option string;
  email : option string;
  website : option string;
  source : string
}.
End ExternalService.

(** The items of the three providers, at the fields the code reads. *)
Module RefugeeInfo.
Record t := {
  name : option string;
  type : option string;
  address : option string;
  phone_number : option string;
  email : option string;
  website : option string
}.
End RefugeeInfo.

Module Unhcr.
Record t := {
  name : option string;
  service_type : option string;
  location : option string;
  contact_phone : option string;
  contact_email : option string;
  website : option string
}.
End Unhcr.

Module ReliefWeb.
Record t := { title : option string; url : option string }.
End ReliefWeb.

(** Each fetcher is given what its request comes to: the items of the
    body, or [None] when the request fails, the answer is not [ok], or
    the body lacks the list. *)
Definition fetchRefugeeInfoServices (answer : option (list RefugeeInfo.t))
  : list ExternalService.t :=
  match answer with
  | None => []
  | Some results =>
      (λ result,
         {| ExternalService.name := RefugeeInfo.name result;
            ExternalService.type := RefugeeInfo.type result;
            ExternalService.address := RefugeeInfo.address result;
            ExternalService.phone := RefugeeInfo.phone_number result;
            ExternalService.email := RefugeeInfo.email result;
            ExternalService.website := RefugeeInfo.website result;
            ExternalService.source := "Refugee.Info" |}) <$> results
  end.

Definition fetchUNHCRServices (answer : option (list Unhcr.t))
  : list ExternalService.t :=
  match answer with
  | None => []
  | Some items =>
      (λ item,
         {| ExternalService.name := Unhcr.name item;
            ExternalService.type := Unhcr.service_type item;
            ExternalService.address := Unhcr.location item;
            ExternalService.phone := Unhcr.contact_phone item;
            ExternalService.email := Unhcr.contact_email item;
            ExternalService.website := Unhcr.website item;
            ExternalService.source := "UNHCR" |}) <$> items
  end.

Definition fetchReliefWebServices (type country : string)
  (answer : option (list ReliefWeb.t)) : list ExternalService.t :=
  match answer with
  | None => []
  | Some data =>
      (λ item,
         {| ExternalService.name := ReliefWeb.title item;
            ExternalService.type := Some type;
            ExternalService.address := Some country;
            ExternalService.phone := Some "";
            ExternalService.email := Some "";
            ExternalService.website := ReliefWeb.url item;
            ExternalService.source := "ReliefWeb" |}) <$> data
  end.

(** [.select('*').eq('type', type).eq('country', country)] *)
Definition selected (type country : string) (r : Db.Row) : bool :=
  bool_decide (Db.type r = type) && bool_decide (Db.country r = Some country).

Definition select (type country : string) (st : Db.Store) : list Db.Row :=
  filter (λ r, selected type country r = true) (Db.rows st).

Inductive Response : Type :=
| Ok200 (internal : list Db.Row) (external : list ExternalService.t)
| Err400 (error : string)
| Err500 (error : string).

(** The handler, for a [POST] whose body carries [type] and [country]
    (the empty string when absent); [selectError] tells whether the
    query on the store fails. *)
Definition serve (type country : string) (selectError : option string)
  (refugeeInfo : option (list RefugeeInfo.t))
  (unhcr : option (list Unhcr.t)) (reliefWeb : option (list ReliefWeb.t))
  (st : Db.Store) : Response :=
  if decide (type = "" ∨ country = "")
  then Err400 "Type and country are required"
  else
    match selectError with
    | Some _ => Err500 "Internal server error"
    | None =>
        Ok200 (select type country st)
              (fetchRefugeeInfoServices refugeeInfo
               ++ fetchUNHCRServices unhcr
               ++ fetchReliefWebServices type country reliefWeb)
    end.

End Unified.

(** ** Sample data for the worked examples *)

Module Examples.

Definition amman : Js.JsValue :=
  Js.JObject [("lat", Js.JNumber (3195 # 100)); ("lng", Js.JNumber (3593 # 100))].

(** A clinic whose summary has no coordinates, and one that has them. *)
Definition clinicNoGeometry : Places.Place.t :=
  {| Places.Place.place_id := "place-a";
     Places.Place.name := "Clinic A";
     Places.Place.vicinity := Some "1 Main St";
     Places.Place.formatted_address := None;
     Places.Place.geometry := None;
     Places.Place.formatted_phone_number := None;
     Places.Place.international_phone_number := None;
     Places.Place.website := None;
     Places.Place.opening_hours := None;
     Places.Place.country := None |}.

Definition clinicB : Places.Place.t :=
  {| Places.Place.place_id := "place-b";
     Places.Place.name := "Clinic B";
     Places.Place.vicinity := Some "2 Main St";
     Places.Place.formatted_address := None;
     Places.Place.geometry := Some (3196 # 100, 3594 # 100)%Q;
     Places.Place.formatted_phone_number := None;
     Places.Place.international_phone_number := None;
     Places.Place.website := None;
     Places.Place.opening_hours := None;
     Places.Place.country := None |}.

(** A provider that finds the given hospitals and nothing else, and
    whose details calls all fail. *)
Definition hospitalsOnly (hospitals : list Places.Place.t) : Places.GoogleApi :=
  {| Places.geocode := λ _ _, inr "Jordan";
     Places.nearbysearch := λ _ _ _ placeType,
       if decide (placeType = "hospital")
       then Places.NearbyData "OK" (Some hospitals)
       else Places.NearbyData "ZERO_RESULTS" None;
     Places.details := λ _, Places.DetailsFailed |}.

Definition clinicRequest : Places.Request :=
  {| Places.location := amman;
     Places.type := "clinic";
     Places.radius := Js.JNumber 5000 |}.

Definition noTags : Osm.Tags.t :=
  {| Osm.Tags.name := None; Osm.Tags.amenity := None;
     Osm.Tags.social_facility := None; Osm.Tags.healthcare := None;
     Osm.Tags.office := None; Osm.Tags.addr_full := None;
     Osm.Tags.phone := None; Osm.Tags.email := None;
     Osm.Tags.website := None; Osm.Tags.opening_hours := None;
     Osm.Tags.contact_phone := None; Osm.Tags.contact_email := None |}.

Definition nairobiClinic : Osm.Element.t :=
  {| Osm.Element.id := 42;
     Osm.Element.type := "node";
     Osm.Element.lat := (-129 # 100)%Q;
     Osm.Element.lon := (3682 # 100)%Q;
     Osm.Element.tags :=
       {| Osm.Tags.name := Some "Nairobi Clinic"; Osm.Tags.amenity := None;
          Osm.Tags.social_facility := None;
          Osm.Tags.healthcare := Some "clinic";
          Osm.Tags.office := None; Osm.Tags.addr_full := None;
          Osm.Tags.phone := None; Osm.Tags.email := None;
          Osm.Tags.website := None; Osm.Tags.opening_hours := None;
          Osm.Tags.contact_phone := None; Osm.Tags.contact_email := None |} |}.

(** A row of the table, by identity, provenance and country. *)
Definition row (id : nat) (source : string) (osm_id place_id : option string)
  (country : string) (created_by : option string) : Db.Row :=
  {| Db.id := id;
     Db.name := "Service " +:+ pretty id;
     Db.type := "clinic";
     Db.address := "";
     Db.latitude := 0;
     Db.longitude := 0;
     Db.phone := "";
     Db.email := "";
     Db.website := None;
     Db.hours := "";
     Db.languages := ["en"];
     Db.description := "";
     Db.created_by := created_by;
     Db.created_at := 0;
     Db.updated_at := 0;
     Db.osm_id := osm_id;
     Db.source := source;
     Db.google_place_id := place_id;
     Db.country := Some country |}.

(** Kenya with a stale OSM row, a manual row and a Places row. *)
Definition kenyaStore : Db.Store :=
  {| Db.rows := [row 0 "OSM" (Some "node/7") None "Kenya" None;
                 row 1 "manual" None None "Kenya" (Some "user-1");
                 row 2 "GooglePlaces" None (Some "place-k") "Kenya" None];
     Db.next_id := 3 |}.

(** A place with coordinates; it has an address only if [vicinity]
    is given. *)
Definition hospital (n : nat) (vicinity : option string) : Places.Place.t :=
  {| Places.Place.place_id := "place-" +:+ pretty n;
     Places.Place.name := "Hospital " +:+ pretty n;
     Places.Place.vicinity := vicinity;
     Places.Place.formatted_address := None;
     Places.Place.geometry := Some (3196 # 100, 3594 # 100)%Q;
     Places.Place.formatted_phone_number := None;
     Places.Place.international_phone_number := None;
     Places.Place.website := None;
     Places.Place.opening_hours := None;
     Places.Place.country := None |}.

(** Eleven hospitals, the last one without an address. *)
Definition elevenHospitals : list Places.Place.t :=
  ((λ n, hospital n (Some "Main St")) <$> seq 0 10) ++ [hospital 10 None].

(** Amman with a manual row and a Places row for ["place-b"]; a
    search that finds that place and a new one. *)
Definition ammanStore : Db.Store :=
  {| Db.rows := [row 0 "manual" None None "Jordan" (Some "user-1");
                 row 1 "GooglePlaces" None (Some "place-b") "Jordan" None];
     Db.next_id := 2 |}.

Definition ammanApi : Places.GoogleApi :=
  hospitalsOnly [clinicB; hospital 1 (Some "Main St")].

Definition ammanFormatted : list Places.FormattedPlace.t :=
  match Places.formattedPlaces ammanApi clinicRequest 5 with
  | inr fs => fs
  | inl _ => []
  end.

Definition elevenFormatted : list Places.FormattedPlace.t :=
  match Places.formattedPlaces (hospitalsOnly elevenHospitals) clinicRequest 0 with
  | inr fs => fs
  | inl _ => []
  end.


(** A client whose OSM lookup never gets through and whose Places
    lookup reaches the edge function. *)
Definition ammanWorld : Aggregator.World :=
  {| Aggregator.supabaseUrl := Some "https://project.example";
     Aggregator.selectError := None;
     Aggregator.osmRequest := λ _, inl (Retry.ErrorObject "Failed to fetch");
     Aggregator.googleRequest := λ _, inr ammanApi;
     Aggregator.clock := 5 |}.

Definition ammanLocation : option (Q * Q) := Some (3195 # 100, 3593 # 100)%Q.



Definition emptyStore : Db.Store := {| Db.rows := []; Db.next_id := 0 |}.



End Examples.


(** * Part II: properties *)

(** ** Deduplication *)

Module DedupFacts.
Section dedupe.
Context {A K : Type} `{Countable K}.
Variable key : A → K.
Local Notation dedupe := (Dedup.dedupe key).
Local Notation first_with_key := (Dedup.first_with_key key).

Lemma dedupe_seen_grows seen items :
  seen ⊆ (dedupe seen items).2.
Proof.
  revert seen. induction items as [|x rest IH]; intros seen; simpl.
  - done.
  - case_decide as Hin.
    + apply IH.
    + specialize (IH ({[key x]} ∪ seen)).
      destruct (dedupe ({[key x]} ∪ seen) rest) as [kept seen'] eqn:E.
      simpl in *. set_solver.
Qed.

Lemma dedupe_seen_spec seen items k :
  k ∈ (dedupe seen items).2 ↔ k ∈ seen ∨ k ∈ key <$> items.
Proof.
  revert seen. induction items as [|x rest IH]; intros seen; simpl.
  - rewrite elem_of_nil. tauto.
  - case_decide as Hin.
    + rewrite IH, elem_of_cons. split; [tauto|].
      intros [?|[->|?]]; auto.
    + specialize (IH ({[key x]} ∪ seen)).
      destruct (dedupe ({[key x]} ∪ seen) rest) as [kept seen'] eqn:E.
      simpl in *. rewrite IH, elem_of_cons. set_solver.
Qed.

Lemma dedupe_kept_fresh seen items x :
  x ∈ (dedupe seen items).1 → key x ∉ seen.
Proof.
  revert seen. induction items as [|y rest IH]; intros seen; simpl.
  - by rewrite elem_of_nil.
  - case_decide as Hin.
    + apply IH.
    + specialize (IH ({[key y]} ∪ seen)).
      destruct (dedupe ({[key y]} ∪ seen) rest) as [kept seen'] eqn:E.
      simpl in *. rewrite elem_of_cons. intros [->|Hx]; [done|].
      apply IH in Hx. set_solver.
Qed.

Lemma dedupe_keys_spec seen items k :
  k ∈ key <$> (dedupe seen items).1 ↔ k ∈ key <$> items ∧ k ∉ seen.
Proof.
  revert seen. induction items as [|x rest IH]; intros seen; simpl.
  - rewrite elem_of_nil. tauto.
  - case_decide as Hin.
    + rewrite IH, elem_of_cons. split; [tauto|].
      intros [[->|?] ?]; [done|tauto].
    + specialize (IH ({[key x]} ∪ seen)).
      destruct (dedupe ({[key x]} ∪ seen) rest) as [kept seen'] eqn:E.
      simpl in *. rewrite !elem_of_cons, IH.
      destruct (decide (k = key x)) as [->|Hne]; set_solver.
Qed.

Lemma dedupe_NoDup seen items :
  NoDup (key <$> (dedupe seen items).1).
Proof.
  revert seen. induction items as [|x rest IH]; intros seen; simpl.
  - constructor.
  - case_decide as Hin.
    + apply IH.
    + pose proof (IH ({[key x]} ∪ seen)) as IH'.
      pose proof (dedupe_keys_spec ({[key x]} ∪ seen) rest (key x)) as Hk.
      destruct (dedupe ({[key x]} ∪ seen) rest) as [kept seen'] eqn:E.
      simpl in *. constructor; [|done].
      rewrite Hk. set_solver.
Qed.

Lemma dedupe_sublist seen items :
  (dedupe seen items).1 `sublist_of` items.
Proof.
  revert seen. induction items as [|x rest IH]; intros seen; simpl.
  - done.
  - case_decide as Hin.
    + by apply sublist_cons.
    + specialize (IH ({[key x]} ∪ seen)).
      destruct (dedupe ({[key x]} ∪ seen) rest) as [kept seen'] eqn:E.
      simpl in *. by apply sublist_skip.
Qed.

(** Every kept item is the first one of the input with its key, among
    the items whose key was not seen before the call. *)
Lemma dedupe_first seen items x :
  x ∈ (dedupe seen items).1 → ∃ j, first_with_key items j x.
Proof.
  revert seen. induction items as [|y rest IH]; intros seen; simpl.
  - by rewrite elem_of_nil.
  - case_decide as Hin.
    + intros Hx. pose proof (dedupe_kept_fresh _ _ _ Hx) as Hfresh.
      destruct (IH _ Hx) as (j & Hj & Hfirst).
      exists (S j). split; [done|].
      intros [|j'] z Hlt Hz; simpl in Hz.
      * inversion Hz; subst. congruence.
      * eapply Hfirst; [|done]. lia.
    + pose proof (IH ({[key y]} ∪ seen)) as IH'.
      pose proof (dedupe_kept_fresh ({[key y]} ∪ seen) rest) as Hfresh.
      destruct (dedupe ({[key y]} ∪ seen) rest) as [kept seen'] eqn:E.
      simpl in *. rewrite elem_of_cons. intros [->|Hx].
      * exists 0. split; [done|]. intros; lia.
      * destruct (IH' Hx) as (j & Hj & Hfirst).
        exists (S j). split; [done|].
        intros [|j'] z Hlt Hz; simpl in Hz.
        -- inversion Hz; subst. apply Hfresh in Hx. set_solver.
        -- eapply Hfirst; [|done]. lia.
Qed.

(** A list whose keys are pairwise distinct and unseen passes through
    unchanged. *)
Lemma dedupe_id seen items :
  NoDup (key <$> items) → (∀ x, x ∈ items → key x ∉ seen) →
  (dedupe seen items).1 = items.
Proof.
  revert seen. induction items as [|x rest IH]; intros seen Hnd Hfresh; simpl.
  - done.
  - inversion Hnd as [|? ? Hx Hrest]; subst.
    case_decide as Hin.
    + exfalso. eapply Hfresh; [|done]. left.
    + specialize (IH ({[key x]} ∪ seen) Hrest).
      destruct (dedupe ({[key x]} ∪ seen) rest) as [kept seen'] eqn:E.
      simpl in *. f_equal. apply IH.
      intros y Hy. assert (key y ≠ key x).
      { intros Heq. apply Hx. rewrite <- Heq. by apply list_elem_of_fmap_2. }
      assert (key y ∉ seen) by (apply Hfresh; by right).
      set_solver.
Qed.

(** The categories of one search are filtered one after the other
    through the same set: the effect is that of one pass over their
    concatenation. *)
Lemma dedupe_app seen l1 l2 :
  dedupe seen (l1 ++ l2) =
  let '(k1, s1) := dedupe seen l1 in
  let '(k2, s2) := dedupe s1 l2 in (k1 ++ k2, s2).
Proof.
  revert seen. induction l1 as [|x rest IH]; intros seen; simpl.
  - by destruct (dedupe seen l2).
  - case_decide as Hin.
    + apply IH.
    + rewrite IH.
      destruct (dedupe ({[key x]} ∪ seen) rest) as [k1 s1].
      by destruct (dedupe s1 l2).
Qed.

(** Conversely, the first item with an unseen key is kept. *)
Lemma dedupe_keeps_first seen items j x :
  first_with_key items j x → key x ∉ seen → x ∈ (dedupe seen items).1.
Proof.
  revert seen j. induction items as [|y rest IH]; intros seen j [Hj Hfirst] Hx.
  - done.
  - simpl. destruct j as [|j]; simpl in Hj.
    + inversion Hj; subst. case_decide as Hin; [done|].
      destruct (Dedup.dedupe key ({[key x]} ∪ seen) rest) as [kept seen'].
      simpl. left.
    + assert (key y ≠ key x) as Hne by (apply (Hfirst 0 y); [lia|done]).
      assert (first_with_key rest j x) as Hrest.
      { split; [done|]. intros j' z Hlt Hz. apply (Hfirst (S j') z); [lia|done]. }
      case_decide as Hin.
      * by eapply IH.
      * pose proof (IH ({[key y]} ∪ seen) j Hrest) as IH'.
        destruct (Dedup.dedupe key ({[key y]} ∪ seen) rest) as [kept seen'].
        simpl in *. right. apply IH'. set_solver.
Qed.

(** C8. Deduplication keeps, in their order, exactly the items that
    are the first of the input with their key: its output carries every
    key of the input exactly once, and it returns its own output
    unchanged. *)
Theorem dedupe_first_seen_wins (items : list A) :
  let kept := Dedup.dedupe_fresh key items in
  kept `sublist_of` items ∧
  (∀ x, x ∈ kept ↔ ∃ j, first_with_key items j x) ∧
  NoDup (key <$> kept) ∧
  (∀ k, k ∈ key <$> kept ↔ k ∈ key <$> items) ∧
  Dedup.dedupe_fresh key kept = kept.
Proof.
  unfold Dedup.dedupe_fresh. cbv zeta. repeat split.
  - apply dedupe_sublist.
  - apply dedupe_first.
  - intros [j Hj]. eapply dedupe_keeps_first; [done|set_solver].
  - apply dedupe_NoDup.
  - rewrite dedupe_keys_spec. tauto.
  - intros Hk. rewrite dedupe_keys_spec. set_solver.
  - apply dedupe_id; [apply dedupe_NoDup|set_solver].
Qed.

End dedupe.
End DedupFacts.

(** ** The resilient fetch client *)

Module RetryFacts.
Import Retry.

Section traced_loop.
Context {R : Type}.
Variable attempt : nat → Traced (Thrown + R).
Variable delay : nat → Q.
Variable retries : nat.

Local Notation sleep := (λ i : nat, ([EvSleep (delay i)], tt) : Traced unit).
Local Notation loop := (retryLoop attempt sleep retries).
Local Notation traceTo := (Retry.traceTo attempt delay).

Lemma retryLoop_unfold remaining i last :
  loop (S remaining) i last =
  match (attempt i).2 with
  | inr r => ((attempt i).1, Returned r)
  | inl t =>
      if decide (i = retries - 1)
      then ((attempt i).1, Threw (Some (toError t)))
      else
        let rest := loop remaining (S i) (Some (toError t)) in
        ((attempt i).1 ++ EvSleep (delay i) :: rest.1, rest.2)
  end.
Proof.
  simpl. unfold mbind, traced_bind, mret, traced_ret.
  destruct (attempt i) as [t [e|r]]; simpl.
  - case_decide.
    + by rewrite app_nil_r.
    + by destruct (loop remaining (S i) (Some (toError e))).
  - by rewrite app_nil_r.
Qed.

Lemma traceTo_self i : traceTo i i = (attempt i).1.
Proof. unfold traceTo. by rewrite Nat.sub_diag. Qed.

Lemma traceTo_step (i m : nat) :
  i < m →
  traceTo i m = (attempt i).1 ++ EvSleep (delay i) :: traceTo (S i) m.
Proof.
  intros Hlt. unfold traceTo.
  replace (m - i) with (S (m - S i)) by lia. simpl.
  by rewrite <- !app_assoc.
Qed.

(** The loop stops at the first attempt that succeeds, or at attempt
    [retries - 1]; every attempt before the last one failed. *)
Lemma retryLoop_shape (remaining i : nat) last :
  i + remaining = retries → 0 < remaining →
  ∃ m, i ≤ m < retries ∧
    (loop remaining i last).1 = traceTo i m ∧
    (∀ j, i ≤ j < m → ∃ t, (attempt j).2 = inl t) ∧
    match (loop remaining i last).2 with
    | Returned r => (attempt m).2 = inr r
    | Threw e =>
        m = retries - 1 ∧
        ∃ t, (attempt m).2 = inl t ∧ e = Some (toError t)
    end.
Proof.
  revert i last. induction remaining as [|n IH]; intros i last Hsum Hpos; [lia|].
  rewrite retryLoop_unfold.
  destruct ((attempt i).2) as [t|r] eqn:Hi.
  - case_decide as Hlast.
    + exists i. simpl. rewrite traceTo_self.
      repeat split; [lia|lia|intros; lia|done|eauto].
    + destruct (IH (S i) (Some (toError t))) as (m & Hm & Htr & Hfail & Hres);
        [lia|lia|].
      exists m. simpl. repeat split; [lia|lia| | |done].
      * rewrite traceTo_step by lia. by rewrite Htr.
      * intros j Hj. destruct (decide (j = i)) as [->|]; [eauto|].
        apply Hfail. lia.
  - exists i. simpl. rewrite traceTo_self.
    repeat split; [lia|lia|intros; lia|done].
Qed.

Lemma sleeps_app t1 t2 : sleeps (t1 ++ t2) = sleeps t1 ++ sleeps t2.
Proof. unfold sleeps. apply omap_app. Qed.

Lemma fetches_app t1 t2 : fetches (t1 ++ t2) = fetches t1 ++ fetches t2.
Proof. unfold fetches. apply omap_app. Qed.

(** When attempts only fetch (at most once each), the sleeps of a
    trace are the delays of its failed attempts, in order. *)
Lemma sleeps_traceTo (i m : nat) :
  (∀ j, sleeps (attempt j).1 = []) → i ≤ m →
  sleeps (traceTo i m) = delay <$> seq i (m - i).
Proof.
  intros Hatt Hle. remember (m - i) as d eqn:Hd.
  revert i Hle Hd. induction d as [|d IH]; intros i Hle Hd.
  - assert (m = i) as -> by lia. rewrite traceTo_self. apply Hatt.
  - rewrite traceTo_step by lia.
    rewrite sleeps_app, Hatt. simpl.
    change (sleeps (EvSleep (delay i) :: traceTo (S i) m))
      with (delay i :: sleeps (traceTo (S i) m)).
    f_equal. apply IH; lia.
Qed.

Lemma fetches_traceTo (i m : nat) :
  (∀ j, length (fetches (attempt j).1) ≤ 1) → i ≤ m →
  length (fetches (traceTo i m)) ≤ S (m - i).
Proof.
  intros Hatt Hle. remember (m - i) as d eqn:Hd.
  revert i Hle Hd. induction d as [|d IH]; intros i Hle Hd.
  - assert (m = i) as -> by lia. rewrite traceTo_self.
    specialize (Hatt i). lia.
  - rewrite traceTo_step by lia.
    rewrite fetches_app, length_app.
    change (fetches (EvSleep (delay i) :: traceTo (S i) m))
      with (fetches (traceTo (S i) m)).
    specialize (IH (S i)). specialize (Hatt i). lia.
Qed.

End traced_loop.

Lemma Qsum_bounded (cap : Q) (l : list Q) :
  Forall (λ d, d <= cap)%Q l → (Qsum l <= inject_Z (Z.of_nat (length l)) * cap)%Q.
Proof.
  induction 1 as [|d l Hd Hl IH].
  - simpl. rewrite Qmult_0_l. apply Qle_refl.
  - change (Qsum (d :: l)) with (d + Qsum l)%Q.
    rewrite length_cons, Nat2Z.inj_succ, <- Z.add_1_l.
    rewrite inject_Z_plus, Qmult_plus_distr_l, Qmult_1_l.
    by apply Qplus_le_compat.
Qed.

Section client.
Variable url : string.
Variable supabaseUrl : option string.
Variable fetch : nat → FetchOutcome.
Variable random : nat → Q.
Variable backoff : Q.

Local Notation attempt := (Client.attempt url supabaseUrl fetch).

Lemma client_attempt_no_sleep j : sleeps (attempt j).1 = [].
Proof. unfold Client.attempt. by repeat case_decide. Qed.

Lemma client_attempt_one_fetch j : length (fetches (attempt j).1) ≤ 1.
Proof. unfold Client.attempt. repeat case_decide; simpl; lia. Qed.

(** An attempt hands back only what [fetch] resolved to, and only with
    [ok] set. *)
Lemma client_attempt_response j r :
  (attempt j).2 = inr r → ok r = true ∧ fetch j = FetchResolved r.
Proof.
  unfold Client.attempt. repeat case_decide; simpl; try done.
  destruct (fetch j) as [t|r']; [done|].
  destruct (ok r') eqn:Hok; [|done]. intros [= ->]. done.
Qed.

Lemma client_delay_capped j :
  (Client.delay random backoff j <= Client.capDelay)%Q.
Proof. unfold Client.delay. apply Q.le_min_r. Qed.


End client.

Section edge.
Variable fetch : nat → FetchOutcome.

Local Notation attempt := (Edge.attempt fetch).




End edge.




End RetryFacts.

(** ** The aggregator: merging and ranking *)

Module AggregatorFacts.
Import Aggregator.

Section sort.
Context {S : Type}.
Implicit Types (l : list (Ranked S)) (x y : Ranked S) (p : Z).

Local Notation le := (λ a b : Ranked S, (priority a ≤ priority b)%Z).
Local Notation keep p := (λ s : Ranked S, hasPriority p s = true).

Lemma insert_perm x l : insert byPriority x l ≡ₚ x :: l.
Proof.
  induction l as [|y l IH]; simpl; [done|].
  case_decide; [done|]. rewrite IH. apply Permutation_swap.
Qed.

Lemma sort_perm l : sort byPriority l ≡ₚ l.
Proof.
  induction l as [|x l IH]; simpl; [done|].
  rewrite insert_perm. by rewrite IH.
Qed.

Lemma insert_sorted x l :
  StronglySorted le l → StronglySorted le (insert byPriority x l).
Proof.
  induction 1 as [|y l Hl IH Hy]; simpl.
  - repeat constructor.
  - unfold byPriority at 1. case_decide as Hxy.
    + constructor; [by constructor|].
      constructor; [lia|].
      eapply Forall_impl; [exact Hy|]. simpl. intros z Hz. lia.
    + constructor; [done|].
      rewrite insert_perm. constructor; [lia|done].
Qed.

Lemma sort_sorted l : StronglySorted le (sort byPriority l).
Proof.
  induction l as [|x l IH]; simpl; [constructor|]. by apply insert_sorted.
Qed.

(** Insertion puts [x] in front of the items of its own priority. *)
Lemma filter_insert p x l :
  filter (keep p) (insert byPriority x l) = filter (keep p) (x :: l).
Proof.
  induction l as [|y l IH]; simpl; [done|].
  unfold byPriority at 1. case_decide as Hxy; [done|].
  rewrite !filter_cons in *. rewrite IH.
  unfold hasPriority.
  destruct (decide (priority x = p)) as [Hx|Hx],
           (decide (priority y = p)) as [Hy|Hy];
    rewrite ?(bool_decide_eq_true_2 _ Hx), ?(bool_decide_eq_false_2 _ Hx),
            ?(bool_decide_eq_true_2 _ Hy), ?(bool_decide_eq_false_2 _ Hy);
    simpl; try done.
  lia.
Qed.

(** Stability: items of equal priority keep their relative order. *)
Lemma sort_stable p l :
  filter (keep p) (sort byPriority l) = filter (keep p) l.
Proof.
  induction l as [|x l IH]; simpl; [done|].
  rewrite filter_insert, !filter_cons, IH. done.
Qed.

(** A list already in ascending order is returned as it is. *)
Lemma sort_id l : StronglySorted le l → sort byPriority l = l.
Proof.
  induction 1 as [|x l Hl IH Hx]; simpl; [done|].
  rewrite IH. destruct l as [|y l]; simpl; [done|].
  unfold byPriority. inversion Hx; subst. case_decide; [done|lia].
Qed.

Lemma filter_rank_same p b (l : list S) :
  filter (keep p) (rank p b <$> l) = rank p b <$> l.
Proof.
  induction l as [|s l IH]; [done|].
  rewrite fmap_cons, filter_cons, IH. unfold hasPriority. simpl.
  by rewrite bool_decide_eq_true_2.
Qed.

Lemma filter_rank_other p q b (l : list S) :
  p ≠ q → filter (keep p) (rank q b <$> l) = [].
Proof.
  intros Hne. induction l as [|s l IH]; [done|].
  rewrite fmap_cons, filter_cons, IH. unfold hasPriority. simpl.
  by rewrite bool_decide_eq_false_2.
Qed.

Lemma allServices_sorted (i o g : option (list S)) :
  StronglySorted le (allServices i o g).
Proof.
  unfold allServices.
  generalize (default [] i) (default [] o) (default [] g).
  intros li lo lg.
  induction li as [|s li IH]; simpl.
  - induction lo as [|s lo IH]; simpl.
    + induction lg as [|s lg IH]; simpl; constructor; [done|].
      apply Forall_fmap, Forall_forall. intros; simpl. lia.
    + constructor; [done|]. apply Forall_app. split.
      * apply Forall_fmap, Forall_forall. intros; simpl. lia.
      * apply Forall_fmap, Forall_forall. intros; simpl. lia.
  - constructor; [done|]. rewrite !Forall_app. repeat split;
      apply Forall_fmap, Forall_forall; intros; simpl; lia.
Qed.

(** The three buckets of a prefix of the merged list, put back
    together, are that prefix. *)
Lemma buckets_of_prefix n (i o g : list S) :
  let sorted :=
    take n ((rank 1 "Verified" <$> i) ++ (rank 2 "OSM" <$> o)
            ++ (rank 3 "GooglePlaces" <$> g)) in
  filter (keep 1) sorted = rank 1 "Verified" <$> take n i ∧
  filter (keep 2) sorted = rank 2 "OSM" <$> take (n - length i) o ∧
  filter (keep 3) sorted
  = rank 3 "GooglePlaces" <$> take (n - length i - length o) g.
Proof.
  cbv zeta. rewrite !take_app, !length_fmap, <- !fmap_take.
  rewrite !filter_app.
  rewrite !filter_rank_same.
  rewrite !filter_rank_other by done.
  by rewrite !app_nil_r.
Qed.

Lemma sortedServices_merged (i o g : option (list S)) :
  sortedServices (allServices i o g) = take 5 (allServices i o g).
Proof. unfold sortedServices. by rewrite sort_id by apply allServices_sorted. Qed.

(** The buckets of a call whose query on the store succeeded. *)
Lemma searchServices_buckets (i : option (list S)) (o g : Lookup S) :
  let result := searchServices {| data := i; dbError := None |} o g in
  internal result = rank 1 "Verified" <$> take 5 (default [] i) ∧
  osm result
  = rank 2 "OSM" <$> take (5 - length (default [] i)) (default [] (guarded o)) ∧
  google result
  = rank 3 "GooglePlaces"
      <$> take (5 - length (default [] i) - length (default [] (guarded o)))
               (default [] (guarded g)) ∧
  error result = None.
Proof.
  cbv zeta. unfold searchServices. simpl.
  rewrite sortedServices_merged. unfold allServices.
  pose proof (buckets_of_prefix 5 (default [] i) (default [] (guarded o))
                (default [] (guarded g))) as (H1 & H2 & H3).
  by rewrite H1, H2, H3.
Qed.

(** C1. The aggregator merges internal (priority 1), OSM (priority 2)
    and Google (priority 3) results in that order, sorts the merged
    list by ascending priority with a stable sort and keeps the first
    five: the buckets it returns are, in order, the first five items
    of the merged list. With 2 internal, 2 OSM and 4 Google records
    the output is the 2 internal records, the 2 OSM records and the
    first Google record. *)
Theorem searchServices_priority_order_top5
  (internalServices osmServices googleServices : list S) :
  let all := allServices (Some internalServices) (Some osmServices)
               (Some googleServices) in
  let result :=
    searchServices {| data := Some internalServices; dbError := None |}
      (LookupJson (Some osmServices)) (LookupJson (Some googleServices)) in
  all = (rank 1 "Verified" <$> internalServices)
        ++ (rank 2 "OSM" <$> osmServices)
        ++ (rank 3 "GooglePlaces" <$> googleServices) ∧
  (∀ l : list (Ranked S),
     StronglySorted (λ a b, (priority a ≤ priority b)%Z) (sort byPriority l) ∧
     sort byPriority l ≡ₚ l ∧
     ∀ p, filter (λ s, hasPriority p s = true) (sort byPriority l)
          = filter (λ s, hasPriority p s = true) l) ∧
  sortedServices all = take 5 all ∧
  internal result ++ osm result ++ google result = take 5 all ∧
  internal result = rank 1 "Verified" <$> take 5 internalServices ∧
  osm result = rank 2 "OSM" <$> take (5 - length internalServices) osmServices ∧
  google result
  = rank 3 "GooglePlaces"
      <$> take (5 - length internalServices - length osmServices)
               googleServices ∧
  error result = None ∧
  ∀ i1 i2 o1 o2 g1 g2 g3 g4 : S,
    searchServices {| data := Some [i1; i2]; dbError := None |}
      (LookupJson (Some [o1; o2])) (LookupJson (Some [g1; g2; g3; g4]))
    = {| internal := [rank 1 "Verified" i1; rank 1 "Verified" i2];
         osm := [rank 2 "OSM" o1; rank 2 "OSM" o2];
         google := [rank 3 "GooglePlaces" g1];
         error := None |}.
Proof.
  cbv zeta.
  pose proof (searchServices_buckets (Some internalServices)
                (LookupJson (Some osmServices))
                (LookupJson (Some googleServices))) as (H1 & H2 & H3 & H4).
  split; [done|]. split.
  { intros l. split; [apply sort_sorted|]. split; [apply sort_perm|].
    intros p. apply sort_stable. }
  split; [apply sortedServices_merged|]. split.
  { rewrite H1, H2, H3. unfold allServices. simpl.
    by rewrite !take_app, !length_fmap, <- !fmap_take. }
  split; [exact H1|]. split; [exact H2|]. split; [exact H3|].
  split; [exact H4|].
  intros. reflexivity.
Qed.

(** C2, as the code has it. A lookup that fails counts as a lookup
    that found nothing: [error] stays null and the other sources fill
    the five places. [error] is set exactly when the query on the store
    fails, whatever the lookups would answer, and then the three
    buckets are empty. *)
Theorem searchServices_failure_tolerance
  (internalServices g o : option (list S)) (m : string)
  (osmLookup googleLookup : Lookup S) :
  let ok := {| data := internalServices; dbError := None |} in
  let failed := {| data := internalServices; dbError := Some m |} in
  error (searchServices ok osmLookup googleLookup) = None ∧
  searchServices ok LookupThrew googleLookup
  = searchServices ok (LookupJson (Some [])) googleLookup ∧
  searchServices ok osmLookup LookupThrew
  = searchServices ok osmLookup (LookupJson (Some [])) ∧
  (let r := searchServices ok LookupThrew (LookupJson g) in
   internal r = rank 1 "Verified" <$> take 5 (default [] internalServices) ∧
   osm r = [] ∧
   google r = rank 3 "GooglePlaces"
                <$> take (5 - length (default [] internalServices))
                         (default [] g)) ∧
  (let r := searchServices ok (LookupJson o) LookupThrew in
   internal r = rank 1 "Verified" <$> take 5 (default [] internalServices) ∧
   osm r = rank 2 "OSM" <$> take (5 - length (default [] internalServices))
                                 (default [] o) ∧
   google r = []) ∧
  (let r := searchServices ok LookupThrew LookupThrew in
   internal r = rank 1 "Verified" <$> take 5 (default [] internalServices) ∧
   osm r = [] ∧ google r = [] ∧ error r = None) ∧
  searchServices failed osmLookup googleLookup
  = {| internal := []; osm := []; google := [];
       error := Some ("Database error: " +:+ m) |} ∧
  ∀ db, error (searchServices db osmLookup googleLookup) ≠ None
        ↔ dbError db ≠ None.
Proof.
  cbv zeta. split.
  { apply searchServices_buckets. }
  split; [done|]. split; [done|]. split.
  { pose proof (searchServices_buckets internalServices LookupThrew
                  (LookupJson g)) as (H1 & H2 & H3 & _).
    simpl in *. rewrite take_nil in H2. rewrite Nat.sub_0_r in H3. done. }
  split.
  { pose proof (searchServices_buckets internalServices (LookupJson o)
                  LookupThrew) as (H1 & H2 & H3 & _).
    simpl in *. rewrite take_nil in H3. done. }
  split.
  { pose proof (searchServices_buckets internalServices LookupThrew
                  LookupThrew) as (H1 & H2 & H3 & H4).
    simpl in *. rewrite take_nil in H2, H3. done. }
  split; [done|].
  intros [d [e|]]; unfold searchServices; simpl; split; try done.
Qed.

End sort.

(** The failure of the store alone, with both lookups answering, sets
    [error] and empties every bucket. *)
Lemma searchServices_store_failure_not_tolerated :
  let result :=
    searchServices {| data := None; dbError := Some "connection refused" |}
      (LookupJson (Some ["osm-clinic"]))
      (LookupJson (Some ["google-clinic"])) in
  error result = Some "Database error: connection refused" ∧
  error result ≠ None ∧
  osm result = [] ∧ google result = [].
Proof. cbv zeta. repeat split; done. Qed.

End AggregatorFacts.

(** ** The Places edge function: request defaults and enrichment *)

Module PlacesFacts.
Import Places.


Lemma searchLocation_idemp (location : Js.JsValue) :
  searchLocation (searchLocation location) = searchLocation location.
Proof.
  unfold searchLocation.
  destruct (wellFormedLocation location) eqn:Hwf; [by rewrite Hwf|done].
Qed.

Lemma or_defaultRadius_idemp (radius : Js.JsValue) :
  Js.or (Js.or radius defaultRadius) defaultRadius = Js.or radius defaultRadius.
Proof.
  unfold Js.or. destruct (Js.truthy radius) eqn:Hr; [by rewrite Hr|done].
Qed.

Section enrichment.
Variable api : GoogleApi.
Variables lat lng radius : Js.JsValue.
Variable country : string.

Lemma searchPlaceTypes_enrich placeTypes seen :
  searchPlaceTypes api lat lng radius country placeTypes seen
  = enrich api country <$> uniquePlaces api lat lng radius placeTypes seen.
Proof.
  revert seen. induction placeTypes as [|placeType rest IH]; intros seen.
  - done.
  - simpl. destruct (nearbysearch api lat lng radius placeType)
      as [|status [results|]]; [apply IH| |apply IH].
    case_decide; [|apply IH].
    destruct (Dedup.dedupe Place.place_id seen results) as [unique seen'].
    by rewrite fmap_app, IH.
Qed.

Lemma uniquePlaces_withDetailsFailing k placeTypes seen :
  uniquePlaces (withDetailsFailing k api) lat lng radius placeTypes seen
  = uniquePlaces api lat lng radius placeTypes seen.
Proof.
  revert seen. induction placeTypes as [|placeType rest IH]; intros seen.
  - done.
  - simpl. destruct (nearbysearch api lat lng radius placeType)
      as [|status [results|]]; [apply IH| |apply IH].
    case_decide; [|apply IH].
    destruct (Dedup.dedupe Place.place_id seen results) as [unique seen'].
    by rewrite IH.
Qed.

Lemma enrich_withDetailsFailing k place :
  enrich (withDetailsFailing k api) country place
  = if decide (Place.place_id place = k) then withDetails place None country
    else enrich api country place.
Proof.
  unfold enrich, getPlaceDetails, withDetailsFailing. simpl.
  by case_decide.
Qed.

End enrichment.


Lemma withDetails_None_summaryOnly country place :
  summaryOnly country place (withDetails place None country).
Proof. by repeat split. Qed.

(** Formatting goes through when every place has coordinates. *)
Lemma formatPlaces_with_geometry type now places :
  Forall (λ p, is_Some (Place.geometry p)) places →
  ∃ formatted, formatPlaces type now places = inr formatted ∧
    length formatted = length places ∧
    FormattedPlace.google_place_id <$> formatted = Place.place_id <$> places.
Proof.
  induction 1 as [|p places [[a b] Hp] Hrest (fs & Hfs & Hlen & Hids)].
  - by exists [].
  - simpl. unfold formatPlace. rewrite Hp, Hfs.
    eexists. split; [done|]. rewrite !fmap_cons, !length_cons, Hlen, Hids.
    done.
Qed.

(** C9, as the code has it. The places a search returns are the
    deduplicated results, each enriched, none dropped. When the details
    call for one place fails, that place stays in the output with its
    summary fields (and the country), and every other item is what it
    would have been; when every place has coordinates the formatting of
    the output does not fail. *)
Theorem enrichment_failure_keeps_every_item
  (api : GoogleApi) (k : string) (lat lng radius : Js.JsValue)
  (country type : string) (now : nat) (placeTypes : list string)
  (seen : gset string) :
  let found := uniquePlaces api lat lng radius placeTypes seen in
  searchPlaceTypes api lat lng radius country placeTypes seen
  = enrich api country <$> found ∧
  searchPlaceTypes (withDetailsFailing k api) lat lng radius country
    placeTypes seen
  = (λ place, if decide (Place.place_id place = k)
              then withDetails place None country
              else enrich api country place) <$> found ∧
  (∀ place, summaryOnly country place (withDetails place None country)) ∧
  (∀ place, getPlaceDetails api (Place.place_id place) = None →
            enrich api country place = withDetails place None country) ∧
  (∀ places, Forall (λ p, is_Some (Place.geometry p)) places →
     ∃ formatted, formatPlaces type now places = inr formatted ∧
       length formatted = length places).
Proof.
  cbv zeta. split; [apply searchPlaceTypes_enrich|]. split.
  { rewrite searchPlaceTypes_enrich, uniquePlaces_withDetailsFailing.
    apply list_fmap_ext. intros _ place _. apply enrich_withDetailsFailing. }
  split; [intros; apply withDetails_None_summaryOnly|]. split.
  { intros place Hnone. unfold enrich. by rewrite Hnone. }
  intros places Hgeo.
  destruct (formatPlaces_with_geometry type now places Hgeo)
    as (fs & Hfs & Hlen & _). eauto.
Qed.

(** A place without coordinates whose details call fails is not
    dropped: formatting it throws, and the whole request fails, the
    place with coordinates included. *)
Lemma missing_coordinates_fail_the_call :
  let api := Examples.hospitalsOnly [Examples.clinicNoGeometry; Examples.clinicB] in
  getPlaceDetails api "place-a" = None ∧
  searchNearbyPlaces api Examples.amman "clinic" (Js.JNumber 5000)
  = inr [withDetails Examples.clinicNoGeometry None "Jordan";
         withDetails Examples.clinicB None "Jordan"] ∧
  formattedPlaces api Examples.clinicRequest 0
  = inl "Cannot read properties of undefined (reading 'location')" ∧
  Db.run (serve api Examples.clinicRequest 0) Examples.emptyStore
  = (Err500 (ErrorThrown
               "Cannot read properties of undefined (reading 'location')"),
     Examples.emptyStore).
Proof. cbv zeta. repeat split; vm_compute; reflexivity. Qed.

End PlacesFacts.

(** ** The store and the replace-by-country refresh *)

Module DbFacts.
Import Db.

Lemma filter_all {A : Type} (P : A → Prop) `{∀ x, Decision (P x)} (l : list A) :
  Forall P l → filter P l = l.
Proof.
  induction 1 as [|x l Hx Hl IH]; [done|].
  by rewrite filter_cons_True, IH.
Qed.

Lemma filter_none {A : Type} (P : A → Prop) `{∀ x, Decision (P x)} (l : list A) :
  Forall (λ x, ¬ P x) l → filter P l = [].
Proof.
  induction 1 as [|x l Hx Hl IH]; [done|].
  by rewrite filter_cons_False.
Qed.

(** A successful insert appends the rows, with identities drawn in
    order from the counter. *)
Lemma insert_rows_inr (new : list (nat → Row)) (st st' : Store) :
  insert_rows new st = inr st' →
  rows st' = rows st ++ imap (λ i mk, mk (next_id st + i)) new ∧
  next_id st' = next_id st + length new.
Proof.
  revert st. induction new as [|mk rest IH]; intros st; simpl.
  - intros [= <-]. rewrite app_nil_r. split; [done|lia].
  - destruct (insert_checks (rows st) (mk (next_id st))); [done|].
    intros Hrest. apply IH in Hrest as [Hrows Hnext]. simpl in *.
    rewrite Hrows, Hnext, <- app_assoc, Nat.add_0_r. simpl.
    split; [|lia]. do 2 f_equal.
    apply imap_ext. intros i x _. simpl. f_equal. lia.
Qed.

Lemma run_Exec {R : Type} (s : Stmt) (k : option DbError → Prog R) (st : Store) :
  run (Exec s k) st
  = match exec s st with
    | inl e => run (k (Some e)) st
    | inr st' => run (k None) st'
    end.
Proof. done. Qed.

(** A sequential run is one of the interleavings. *)
Lemma par_run_left {A B : Type} (p : Prog A) (q : Prog B) (st : Store) :
  rtc par_step (st, p, q) ((run p st).2, Ret (run p st).1, q).
Proof.
  revert st. induction p as [r|s k IH]; intros st; simpl.
  - done.
  - destruct (exec s st) as [e|st'] eqn:Hexec.
    + eapply rtc_l; [by apply step_left_err|]. apply IH.
    + eapply rtc_l; [by apply step_left_ok|]. apply IH.
Qed.

Lemma par_run_right {A B : Type} (a : A) (q : Prog B) (st : Store) :
  rtc par_step (st, Ret a, q) ((run q st).2, Ret a, Ret (run q st).1).
Proof.
  revert st. induction q as [r|s k IH]; intros st; simpl.
  - done.
  - destruct (exec s st) as [e|st'] eqn:Hexec.
    + eapply rtc_l; [by apply step_right_err|]. apply IH.
    + eapply rtc_l; [by apply step_right_ok|]. apply IH.
Qed.

Lemma par_run_sequential {A B : Type} (p : Prog A) (q : Prog B) (st : Store) :
  par_run st p q (run p st).1 (run q (run p st).2).1 (run q (run p st).2).2.
Proof.
  unfold par_run. etransitivity; [apply par_run_left|apply par_run_right].
Qed.

(** An invariant of the statements two programs issue holds after any
    interleaving of them. *)
Lemma par_step_invariant {A B : Type} (P : Stmt → Prop) (I : Store → Prop) :
  (∀ s st st', P s → I st → exec s st = inr st' → I st') →
  ∀ c c' : Store * Prog A * Prog B,
    rtc par_step c c' →
    issues P c.1.2 → issues P c.2 → I c.1.1 →
    issues P c'.1.2 ∧ issues P c'.2 ∧ I c'.1.1.
Proof.
  intros Hpres c c' Hrun.
  induction Hrun as [c|c1 c2 c3 Hstep _ IH]; [done|].
  intros Hp Hq HI. apply IH; clear IH;
    destruct Hstep as [st st' s k q Hexec|st e s k q Hexec
                      |st st' s k p Hexec|st e s k p Hexec]; simpl in *;
    try done;
    try (inversion Hp; subst; by eauto);
    try (inversion Hq; subst; by eauto).
Qed.

Lemma par_run_invariant {A B : Type} (P : Stmt → Prop) (I : Store → Prop)
  (p : Prog A) (q : Prog B) (a : A) (b : B) (st st' : Store) :
  (∀ s st st', P s → I st → exec s st = inr st' → I st') →
  par_run st p q a b st' → issues P p → issues P q → I st → I st'.
Proof.
  intros Hpres Hrun Hp Hq HI.
  destruct (par_step_invariant P I Hpres _ _ Hrun Hp Hq HI) as (_ & _ & H).
  exact H.
Qed.

Lemma issues_bind {A B : Type} (P : Stmt → Prop) (f : A → Prog B) (p : Prog A) :
  issues P p → (∀ a, issues P (f a)) → issues P (bind f p).
Proof.
  intros Hp Hf. induction Hp as [r|s k Hs Hk IH]; simpl.
  - apply Hf.
  - constructor; [done|]. intros e. apply IH.
Qed.

End DbFacts.

Module OsmFacts.
Import Db Osm.

Lemma toRow_is_osm_of country now element id :
  is_osm_of country (toRow now (toService country element) id) = true.
Proof.
  unfold is_osm_of. simpl. by rewrite !bool_decide_eq_true_2.
Qed.

Lemma replaceByCountry_ok country now osmServices st count services st' :
  run (replaceByCountry country now osmServices) st
  = (Ok200 count services, st') →
  services = osmServices ∧ count = length osmServices ∧
  match osmServices with
  | [] => st' = st
  | _ :: _ =>
      rows st' = filter (λ r, is_osm_of country r = false) (rows st)
                 ++ imap (λ i s, toRow now s (next_id st + i)) osmServices
  end.
Proof.
  unfold replaceByCountry. destruct osmServices as [|s rest].
  - simpl. by intros [= <- <- <-].
  - case_decide as Hlen; [|simpl in Hlen; lia].
    rewrite DbFacts.run_Exec. cbn [exec]. rewrite DbFacts.run_Exec. cbn [exec].
    destruct (insert_rows _ (delete_osm country st)) as [e|st2] eqn:Hins;
      simpl; [done|].
    intros [= <- <- <-]. split; [done|]. split; [done|].
    apply DbFacts.insert_rows_inr in Hins as [Hrows _].
    rewrite Hrows. simpl. f_equal. f_equal.
    rewrite imap_fmap. done.
Qed.

(** C4, as the code has it. A refresh for a country that reports
    success and fetched at least one record leaves, for that country,
    the fetched records as its only OSM rows, and leaves every other
    row (manual, Places, OSM of other countries) as it was, in place;
    a refresh that fetched nothing leaves the whole store as it was. *)
Theorem replace_by_country_refresh
  (country : string) (now : nat) (elements : list Element.t)
  (st st' : Store) (count : nat) (services : list Service.t) :
  run (serve country (OverpassData elements) now) st
  = (Ok200 count services, st') →
  let fetched := toService country <$> elements in
  let others := filter (λ r, is_osm_of country r = false) (rows st) in
  let new := imap (λ i s, toRow now s (next_id st + i)) fetched in
  services = fetched ∧ count = length elements ∧
  match elements with
  | [] => st' = st
  | _ :: _ =>
      rows st' = others ++ new ∧
      filter (λ r, is_osm_of country r = true) (rows st') = new ∧
      filter (λ r, is_osm_of country r = false) (rows st') = others
  end ∧
  ∀ r, r ∈ rows st →
       source r ≠ "OSM" ∨ Db.country r ≠ Some country → r ∈ rows st'.
Proof.
  unfold serve. case_decide as Hc; [done|]. simpl fetchOsmServices. cbv iota.
  intros Hrun. apply replaceByCountry_ok in Hrun as (-> & -> & Hst).
  cbv zeta. split; [done|]. split; [by rewrite length_fmap|].
  assert (Hnew : Forall (λ r, is_osm_of country r = true)
                   (imap (λ i s, toRow now s (next_id st + i))
                         (toService country <$> elements))).
  { apply Forall_forall. intros r Hr.
    apply elem_of_lookup_imap in Hr as (i & s & -> & Hs).
    apply list_lookup_fmap_Some in Hs as (e & -> & _).
    apply toRow_is_osm_of. }
  assert (Hothers : Forall (λ r, is_osm_of country r = false)
                      (filter (λ r, is_osm_of country r = false) (rows st))).
  { apply Forall_forall. intros r Hr. by apply list_elem_of_filter in Hr as [? _]. }
  destruct elements as [|e rest].
  - simpl in Hst. subst st'. split; [done|]. by intros.
  - rewrite fmap_cons in *. split.
    + split; [exact Hst|]. rewrite Hst, !filter_app. split.
      * rewrite (DbFacts.filter_none _ (filter _ (rows st))).
        -- simpl. apply DbFacts.filter_all. exact Hnew.
        -- eapply Forall_impl; [exact Hothers|]. simpl. intros r ->. done.
      * rewrite (DbFacts.filter_all _ (filter _ (rows st))) by exact Hothers.
        rewrite (DbFacts.filter_none _ (imap _ _)); [by rewrite app_nil_r|].
        eapply Forall_impl; [exact Hnew|]. simpl. intros r ->. done.
    + intros r Hr Hne. rewrite Hst. apply elem_of_app. left.
      apply list_elem_of_filter. split; [|done].
      unfold is_osm_of. apply andb_false_iff.
      rewrite !bool_decide_eq_false. tauto.
Qed.

(** A refresh that fetched nothing reports success and deletes
    nothing: the stale OSM row of the country stays. *)
Lemma empty_refresh_keeps_stale_rows :
  run (serve "Kenya" (OverpassData []) 7) Examples.kenyaStore
  = (Ok200 0 [], Examples.kenyaStore) ∧
  filter (λ r, is_osm_of "Kenya" r = true) (rows Examples.kenyaStore)
  = [Examples.row 0 "OSM" (Some "node/7") None "Kenya" None].
Proof. split; vm_compute; reflexivity. Qed.

Lemma replace_by_country_refresh_witness :
  let p := serve "Kenya" (OverpassData [Examples.nairobiClinic]) 7 in
  run p Examples.kenyaStore
  = (Ok200 1 [toService "Kenya" Examples.nairobiClinic],
     (run p Examples.kenyaStore).2) ∧
  rows (run p Examples.kenyaStore).2
  = [Examples.row 1 "manual" None None "Kenya" (Some "user-1");
     Examples.row 2 "GooglePlaces" None (Some "place-k") "Kenya" None;
     toRow 7 (toService "Kenya" Examples.nairobiClinic) 3].
Proof.
  cbv zeta.
  assert (Hrun : run (serve "Kenya" (OverpassData [Examples.nairobiClinic]) 7)
                     Examples.kenyaStore
                 = (Ok200 1 [toService "Kenya" Examples.nairobiClinic],
                    (run (serve "Kenya" (OverpassData [Examples.nairobiClinic]) 7)
                         Examples.kenyaStore).2))
    by (vm_compute; reflexivity).
  split; [exact Hrun|].
  destruct (replace_by_country_refresh _ _ _ _ _ _ _ Hrun)
    as (_ & _ & [Hrows _] & _).
  rewrite Hrows. vm_compute. reflexivity.
Defined.

End OsmFacts.

(** ** The upsert-by-place-id refresh *)

Module UpsertFacts.
Import Db Places.

Local Notation key := FormattedPlace.google_place_id.

(** Whether the upsert of a row goes through does not depend on the
    table; when it does, its effect is [upserted]. *)
Lemma upsert_one_eq (f : FormattedPlace.t) (touched : gset string) (st : Store) :
  upsert_one (toUpsert f) touched st
  = match payloadError f with
    | Some e => inl e
    | None =>
        if decide (key f ∈ touched) then inl CardinalityViolation
        else inr ({[key f]} ∪ touched, upserted st f)
    end.
Proof.
  unfold upsert_one, payloadError, upserted. simpl.
  destruct (FormattedPlace.address f) as [a|]; [|done].
  change (type_check (insertedRow f (next_id st)))
    with (type_check (insertedRow f 0)).
  change (check_external_ids (insertedRow f (next_id st)))
    with (check_external_ids (insertedRow f 0)).
  destruct (type_check (insertedRow f 0)); simpl; [|done].
  destruct (check_external_ids (insertedRow f 0)); simpl; [|done].
  case_decide; [done|].
  by destruct (existsb (has_place_id (key f)) (rows st)).
Qed.

Lemma upsert_rows_eq (batch : list FormattedPlace.t) (touched : gset string)
  (st : Store) :
  upsert_rows (toUpsert <$> batch) touched st
  = match batchError batch touched with
    | Some e => inl e
    | None => inr (foldl upserted st batch)
    end.
Proof.
  revert touched st. induction batch as [|f rest IH]; intros touched st.
  - done.
  - rewrite fmap_cons. simpl. rewrite upsert_one_eq.
    destruct (payloadError f); [done|].
    case_decide; [done|]. apply IH.
Qed.

Lemma exec_upsert_eq (batch : list FormattedPlace.t) (st : Store) :
  exec (UpsertByPlaceId (toUpsert <$> batch)) st
  = match batchError batch ∅ with
    | Some e => inl e
    | None => inr (foldl upserted st batch)
    end.
Proof. apply upsert_rows_eq. Qed.

Lemma commitAll_Some (bs : list (list FormattedPlace.t)) (st st' : Store) :
  commitAll bs st = Some st' ↔
  Forall (λ b, batchError b ∅ = None) bs ∧ st' = foldl upserted st (concat bs).
Proof.
  revert st. induction bs as [|b bs IH]; intros st.
  - simpl. split; [intros [= <-]; by split|intros [_ ->]; done].
  - cbn [commitAll concat]. rewrite exec_upsert_eq.
    destruct (batchError b ∅) as [e|] eqn:Hb.
    + split; [done|]. intros [Hall _]. inversion Hall; congruence.
    + rewrite IH, foldl_app. split.
      * intros [Hall ->]. split; [by constructor|done].
      * intros [Hall ->]. inversion Hall; subst. done.
Qed.

(** The batch loop commits batch after batch and stops at the first
    one that fails. *)
Lemma upsertBatches_run (bs : list (list FormattedPlace.t)) (st : Store) :
  ∃ committed rest mid,
    bs = committed ++ rest ∧
    commitAll committed st = Some mid ∧
    match rest with
    | [] => run (upsertBatches bs) st = (None, mid)
    | failed :: _ =>
        ∃ e, exec (UpsertByPlaceId (toUpsert <$> failed)) mid = inl e ∧
             run (upsertBatches bs) st = (Some e, mid)
    end.
Proof.
  revert st. induction bs as [|b bs IH]; intros st.
  - by exists [], [], st.
  - simpl upsertBatches. rewrite DbFacts.run_Exec.
    destruct (exec (UpsertByPlaceId (toUpsert <$> b)) st) as [e|st1] eqn:Hb.
    + exists [], (b :: bs), st. split; [done|]. split; [done|].
      exists e. done.
    + destruct (IH st1) as (committed & rest & mid & -> & Hc & Hrest).
      exists (b :: committed), rest, mid. split; [done|]. split.
      * cbn [commitAll]. by rewrite Hb.
      * done.
Qed.

(** The batches cut the list into consecutive pieces of [batchSize]
    records, the last one possibly shorter. *)
Lemma batchesFrom_concat {A : Type} (l : list A) (fuel i : nat) :
  length l - i ≤ fuel → concat (batchesFrom fuel i l) = drop i l.
Proof.
  revert i. induction fuel as [|fuel IH]; intros i Hfuel; simpl.
  - rewrite drop_ge; [done|lia].
  - case_decide as Hi.
    + simpl. rewrite IH by (unfold batchSize; lia).
      unfold slice. replace (i + batchSize - i) with batchSize by lia.
      rewrite <- drop_drop. apply take_drop.
    + rewrite drop_ge; [done|lia].
Qed.

Lemma batchesFrom_sizes {A : Type} (l : list A) (fuel i : nat) :
  Forall (λ b, 0 < length b ≤ batchSize) (batchesFrom fuel i l).
Proof.
  revert i. induction fuel as [|fuel IH]; intros i; simpl; [constructor|].
  case_decide as Hi; [|constructor].
  constructor; [|apply IH].
  unfold slice. rewrite length_take, length_drop. unfold batchSize. lia.
Qed.

Lemma batches_concat {A : Type} (l : list A) : concat (batches l) = l.
Proof. unfold batches. rewrite batchesFrom_concat by lia. apply drop_0. Qed.

Lemma batchesFrom_ge {A : Type} (l : list A) (fuel i : nat) :
  length l ≤ i → batchesFrom fuel i l = [].
Proof. intros Hi. destruct fuel; simpl; [done|]. case_decide; [lia|done]. Qed.

Lemma batches_short {A : Type} (l : list A) :
  0 < length l ≤ batchSize → batches l = [l].
Proof.
  intros Hl. unfold batches.
  destruct (length l) as [|n] eqn:Hn; [lia|].
  cbn [batchesFrom]. case_decide as H0; [|lia].
  rewrite batchesFrom_ge by lia.
  unfold slice. rewrite drop_0, take_ge by lia. done.
Qed.

(** *** One upsert *)

Local Notation upd := Places.onConflict.

Lemma has_place_id_true k r :
  has_place_id k r = true ↔ google_place_id r = Some k.
Proof. unfold has_place_id. apply bool_decide_eq_true. Qed.

Lemma has_place_id_false k r :
  has_place_id k r = false ↔ google_place_id r ≠ Some k.
Proof. unfold has_place_id. apply bool_decide_eq_false. Qed.

Lemma existsb_has k (l : list Row) :
  existsb (has_place_id k) l = true ↔ Some k ∈ google_place_id <$> l.
Proof.
  induction l as [|r l IH]; simpl.
  - rewrite elem_of_nil. split; [done|tauto].
  - rewrite orb_true_iff, IH, has_place_id_true, elem_of_cons.
    split; intros [?|?]; auto.
Qed.

Lemma existsb_has_false k (l : list Row) :
  existsb (has_place_id k) l = false ↔ Some k ∉ google_place_id <$> l.
Proof.
  rewrite <- existsb_has. destruct (existsb (has_place_id k) l); [|done].
  split; [done|]. intros Hn. by destruct Hn.
Qed.

Lemma upserted_present st f :
  Some (key f) ∈ google_place_id <$> rows st →
  upserted st f = {| rows := upd f <$> rows st; next_id := next_id st |}.
Proof.
  intros Hin. unfold upserted. cbv zeta.
  by rewrite (proj2 (existsb_has _ _) Hin).
Qed.

Lemma upserted_absent st f :
  Some (key f) ∉ google_place_id <$> rows st →
  upserted st f = {| rows := rows st ++ [insertedRow f (next_id st)];
                     next_id := S (next_id st) |}.
Proof.
  intros Hin. unfold upserted. cbv zeta.
  by rewrite (proj2 (existsb_has_false _ _) Hin).
Qed.

Lemma upd_id f r : id (upd f r) = id r.
Proof. unfold onConflict. by destruct (has_place_id (key f) r). Qed.



Lemma upd_other f r : google_place_id r ≠ Some (key f) → upd f r = r.
Proof. intros Hne. unfold onConflict. by rewrite (proj2 (has_place_id_false _ _) Hne). Qed.



Lemma fmap_upd_ids f (l : list Row) : id <$> (upd f <$> l) = id <$> l.
Proof.
  rewrite <- list_fmap_compose. apply list_fmap_ext.
  intros _ r _. apply upd_id.
Qed.



Lemma upserted_next st f : next_id st ≤ next_id (upserted st f).
Proof.
  destruct (decide (Some (key f) ∈ google_place_id <$> rows st)) as [Hin|Hin].
  - rewrite upserted_present by done. done.
  - rewrite upserted_absent by done. simpl. lia.
Qed.






(** *** A whole refresh *)

Local Notation refreshed := (foldl upserted).

Lemma refreshed_next st fs : next_id st ≤ next_id (refreshed st fs).
Proof.
  revert st. induction fs as [|f fs IH]; intros st; simpl; [done|].
  etransitivity; [apply (upserted_next st f)|apply IH].
Qed.












(** *** The records the handler upserts *)

Lemma formatPlaces_inr type now places fs :
  formatPlaces type now places = inr fs →
  key <$> fs = Place.place_id <$> places ∧
  Forall (λ f, FormattedPlace.source f = "GooglePlaces") fs.
Proof.
  revert fs. induction places as [|p places IH]; intros fs; simpl.
  - intros [= <-]. by split.
  - unfold formatPlace. destruct (Place.geometry p) as [[a b]|]; [|done].
    destruct (formatPlaces type now places) as [e|fs']; [done|].
    intros [= <-]. destruct (IH fs' eq_refl) as [Hk Hs].
    split; [by rewrite !fmap_cons, Hk|by constructor].
Qed.

Lemma enrich_place_id api country place :
  Place.place_id (enrich api country place) = Place.place_id place.
Proof.
  unfold enrich, withDetails.
  by destruct (getPlaceDetails api (Place.place_id place)).
Qed.

(** The place ids of one search are pairwise distinct, whatever the
    categories return. *)
Lemma uniquePlaces_fresh api lat lng radius placeTypes seen :
  NoDup (Place.place_id <$> uniquePlaces api lat lng radius placeTypes seen) ∧
  ∀ k, k ∈ Place.place_id <$> uniquePlaces api lat lng radius placeTypes seen →
       k ∉ seen.
Proof.
  revert seen. induction placeTypes as [|placeType rest IH]; intros seen.
  - simpl. split; [constructor|]. intros k Hk. by apply elem_of_nil in Hk.
  - simpl. destruct (nearbysearch api lat lng radius placeType)
      as [|status [results|]]; [apply IH| |apply IH].
    case_decide; [|apply IH].
    pose proof (DedupFacts.dedupe_NoDup Place.place_id seen results) as Hnd.
    pose proof (DedupFacts.dedupe_keys_spec Place.place_id seen results) as Hkeys.
    pose proof (DedupFacts.dedupe_seen_spec Place.place_id seen results) as Hseen.
    destruct (Dedup.dedupe Place.place_id seen results) as [unique seen'].
    simpl in *. destruct (IH seen') as [Hrest Hfresh].
    rewrite fmap_app. split.
    + apply NoDup_app. split; [done|]. split; [|done].
      intros k Hk Hk'. apply (Hfresh k Hk'). apply Hseen. right.
      by apply Hkeys in Hk as [? _].
    + intros k Hk. apply elem_of_app in Hk as [Hk|Hk].
      * by apply Hkeys in Hk as [_ ?].
      * intros Hin. apply (Hfresh k Hk). apply Hseen. by left.
Qed.

Lemma formattedPlaces_inr api req now fs :
  formattedPlaces api req now = inr fs →
  NoDup (key <$> fs) ∧
  Forall (λ f, FormattedPlace.source f = "GooglePlaces") fs.
Proof.
  unfold formattedPlaces, searchArguments, searchNearbyPlaces.
  case_decide; [done|].
  destruct (getCountryFromCoordinates _ _ _) as [e|country]; [done|].
  destruct (placeTypesFor _) as [placeTypes|]; [|done].
  intros Hfmt. apply formatPlaces_inr in Hfmt as [Hk Hs]. split; [|done].
  rewrite Hk, PlacesFacts.searchPlaceTypes_enrich, <- list_fmap_compose.
  erewrite list_fmap_ext; [apply uniquePlaces_fresh|].
  intros _ p _. apply enrich_place_id.
Qed.

(** *** Running the refresh *)

Lemma upsertPlaces_eq (fs : list FormattedPlace.t) :
  upsertPlaces fs = upsertBatches (batches fs).
Proof.
  unfold upsertPlaces. case_decide as Hlen; [done|].
  destruct fs; [done|simpl in Hlen; lia].
Qed.




Lemma run_bind {A B : Type} (f : A → Prog B) (p : Prog A) (st : Store) :
  run (bind f p) st = run (f (run p st).1) (run p st).2.
Proof.
  revert st. induction p as [a|s k IH]; intros st; simpl; [done|].
  destruct (exec s st); apply IH.
Qed.

(** The handler answers 500 with the error of the failed batch, and
    200 when every batch went through. *)
Lemma serve_run api req now fs st :
  formattedPlaces api req now = inr fs →
  run (serve api req now) st
  = (match (run (upsertPlaces fs) st).1 with
     | Some e => Err500 (UpsertError e)
     | None => Ok200 (length fs) fs
     end, (run (upsertPlaces fs) st).2).
Proof.
  intros Hfs. unfold serve. rewrite Hfs. unfold mbind, prog_bind.
  rewrite run_bind. by destruct (run (upsertPlaces fs) st).1.
Qed.

(** *** The claims on the refresh *)







(** C6, as the code has it. The refresh cuts its records into
    consecutive batches of at most ten and upserts them one statement
    at a time; it stops at the first batch that fails and hands that
    error to the caller, which answers 500. The failed batch changes
    nothing, but the batches before it stay committed: the table is
    left as they made it (so a refresh of at most ten records is all
    or nothing). *)
Theorem upsert_refresh_fail_fast
  (api : GoogleApi) (req : Request) (now : nat)
  (formatted : list FormattedPlace.t) (st : Store) :
  formattedPlaces api req now = inr formatted →
  let bs := batches formatted in
  concat bs = formatted ∧
  Forall (λ b, 0 < length b ≤ 10) bs ∧
  (∃ committed rest mid,
      bs = committed ++ rest ∧
      commitAll committed st = Some mid ∧
      mid = foldl upserted st (concat committed) ∧
      match rest with
      | [] =>
          run (upsertPlaces formatted) st = (None, mid) ∧
          run (serve api req now) st
          = (Ok200 (length formatted) formatted, mid)
      | failed :: _ =>
          ∃ e, exec (UpsertByPlaceId (toUpsert <$> failed)) mid = inl e ∧
               run (upsertPlaces formatted) st = (Some e, mid) ∧
               run (serve api req now) st = (Err500 (UpsertError e), mid)
      end) ∧
  (length formatted ≤ 10 →
   ∀ e st', run (upsertPlaces formatted) st = (Some e, st') → st' = st).
Proof.
  intros Hfs. cbv zeta.
  split; [apply batches_concat|].
  split; [apply batchesFrom_sizes|].
  pose proof (serve_run api req now formatted st Hfs) as Hserve.
  destruct (upsertBatches_run (batches formatted) st)
    as (committed & rest & mid & Hbs & Hc & Hrest).
  rewrite <- upsertPlaces_eq in Hrest.
  split.
  { exists committed, rest, mid. split; [done|]. split; [done|].
    split; [by apply commitAll_Some in Hc as [_ ?]|].
    destruct rest as [|failed rest].
    - rewrite Hrest in Hserve. done.
    - destruct Hrest as (e & He & Hrun). exists e.
      rewrite Hrun in Hserve. done. }
  intros Hlen e st' Hrun.
  destruct formatted as [|f fs]; [by vm_compute in Hrun|].
  rewrite batches_short in Hbs by (unfold batchSize; simpl in *; lia).
  destruct rest as [|failed rest]; [congruence|].
  destruct Hrest as (e' & _ & Hrun').
  destruct committed as [|b committed].
  - simpl in Hc. congruence.
  - exfalso. simpl in Hbs. injection Hbs as _ Hbs.
    by destruct committed.
Qed.

Lemma upsert_refresh_fail_fast_witness :
  formattedPlaces (Examples.hospitalsOnly Examples.elevenHospitals)
    Examples.clinicRequest 0
  = inr Examples.elevenFormatted ∧
  concat (batches Examples.elevenFormatted) = Examples.elevenFormatted ∧
  Forall (λ b, 0 < length b ≤ 10) (batches Examples.elevenFormatted).
Proof.
  assert (Hfs : formattedPlaces (Examples.hospitalsOnly Examples.elevenHospitals)
                  Examples.clinicRequest 0
                = inr Examples.elevenFormatted) by (vm_compute; reflexivity).
  split; [exact Hfs|].
  destruct (upsert_refresh_fail_fast _ _ _ _ Examples.emptyStore Hfs)
    as (Hconcat & Hsizes & _).
  split; [exact Hconcat|exact Hsizes].
Defined.

(** Eleven records, the eleventh without an address: the first batch
    of ten is committed, the second fails, the handler answers 500 and
    the ten rows stay. *)
Lemma failed_batch_keeps_earlier_batches :
  let result :=
    run (serve (Examples.hospitalsOnly Examples.elevenHospitals)
           Examples.clinicRequest 0) Examples.emptyStore in
  result.1 = Err500 (UpsertError (NotNullViolation "address")) ∧
  length (rows result.2) = 10 ∧
  result.2 ≠ Examples.emptyStore.
Proof.
  cbv zeta. split; [vm_compute; reflexivity|].
  split; [vm_compute; reflexivity|].
  intros Heq. apply (f_equal (λ s, length (rows s))) in Heq.
  vm_compute in Heq. discriminate.
Qed.

End UpsertFacts.

(** ** The Places edge function: location and radius of a request *)

Module DefaultsFacts.
Import Db Places.




End DefaultsFacts.

(** ** The aggregator on the store *)

Module StoreEffectFacts.
Import Db Aggregator.

Local Notation keepsManual := Db.keepsManual.

Lemma filter_manual_fmap (h : Row → Row) (l : list Row) :
  Forall (λ r, if is_manual r then h r = r else is_manual (h r) = false) l →
  filter (λ r, is_manual r = true) (h <$> l) = filter (λ r, is_manual r = true) l.
Proof.
  induction 1 as [|r l Hr _ IH]; [done|].
  rewrite fmap_cons, !filter_cons, IH.
  destruct (is_manual r) eqn:Hm.
  - rewrite Hr, Hm. done.
  - rewrite Hr. done.
Qed.

Lemma delete_osm_keepsManual st0 c st :
  keepsManual st0 st → keepsManual st0 (delete_osm c st).
Proof.
  intros [Hrows Hinv]. split.
  - rewrite <- Hrows. unfold manual_rows, delete_osm. simpl.
    induction (rows st) as [|r l IH]; [done|].
    rewrite !filter_cons.
    destruct (decide (is_osm_of c r = false)) as [Ho|Ho].
    + rewrite filter_cons, IH. done.
    + rewrite IH. case_decide as Hm; [|done].
      exfalso. apply Ho. unfold is_osm_of, is_manual in *.
      apply bool_decide_eq_true in Hm. rewrite Hm. done.
  - unfold manual_without_place_id, delete_osm in *. simpl.
    apply Forall_forall. intros r Hr.
    apply list_elem_of_filter in Hr as [_ Hr].
    rewrite Forall_forall in Hinv. by apply Hinv.
Qed.

Lemma insert_osm_keepsManual st0 now country elements st st' :
  keepsManual st0 st →
  insert_rows (Osm.toRow now <$> (Osm.toService country <$> elements)) st
  = inr st' →
  keepsManual st0 st'.
Proof.
  intros [Hrows Hinv] Hins.
  apply DbFacts.insert_rows_inr in Hins as [Hst' _].
  assert (Hnew : Forall (λ r, is_manual r = false)
            (imap (λ i mk, mk (next_id st + i))
               (Osm.toRow now <$> (Osm.toService country <$> elements)))).
  { apply Forall_forall. intros r Hr.
    apply elem_of_lookup_imap in Hr as (i & mk & -> & Hmk).
    apply list_lookup_fmap_Some in Hmk as (s & -> & Hs).
    apply list_lookup_fmap_Some in Hs as (e & -> & _). done. }
  split.
  - unfold manual_rows in *. rewrite Hst', filter_app.
    rewrite (DbFacts.filter_none _ (imap _ _)).
    + by rewrite app_nil_r.
    + eapply Forall_impl; [exact Hnew|]. simpl. intros r ->. done.
  - unfold manual_without_place_id. rewrite Hst'. apply Forall_app.
    split; [done|]. eapply Forall_impl; [exact Hnew|].
    simpl. intros r ->. done.
Qed.

Lemma upserted_keepsManual st0 st f :
  Places.FormattedPlace.source f = "GooglePlaces" →
  keepsManual st0 st → keepsManual st0 (Places.upserted st f).
Proof.
  intros Hsrc [Hrows Hinv]. unfold manual_without_place_id in Hinv.
  destruct (decide (Some (Places.FormattedPlace.google_place_id f)
                    ∈ google_place_id <$> rows st)) as [Hin|Hin].
  - rewrite UpsertFacts.upserted_present by done.
    assert (Hfix : Forall (λ r, if is_manual r then Places.onConflict f r = r
                                else is_manual (Places.onConflict f r) = false)
                     (rows st)).
    { eapply Forall_impl; [exact Hinv|]. simpl. intros r Hr.
      destruct (is_manual r) eqn:Hm.
      - apply UpsertFacts.upd_other. by rewrite Hr.
      - unfold Places.onConflict.
        destruct (has_place_id _ r); [|done].
        unfold is_manual. simpl. rewrite Hsrc. done. }
    split.
    + unfold manual_rows in *. simpl. by rewrite filter_manual_fmap.
    + unfold manual_without_place_id. simpl. apply Forall_fmap.
      rewrite Forall_forall in Hfix, Hinv. apply Forall_forall.
      intros r Hr. simpl. specialize (Hfix r Hr). specialize (Hinv r Hr).
      destruct (is_manual r) eqn:Hm.
      * rewrite Hfix, Hm. done.
      * rewrite Hfix. done.
  - rewrite UpsertFacts.upserted_absent by done. split.
    + unfold manual_rows in *. simpl. rewrite filter_app, Hrows.
      rewrite (DbFacts.filter_none _ [_]); [by rewrite app_nil_r|].
      repeat constructor. unfold is_manual. simpl. by rewrite Hsrc.
    + unfold manual_without_place_id. simpl. apply Forall_app.
      split; [done|]. repeat constructor.
      unfold is_manual. simpl. by rewrite Hsrc.
Qed.

(** No statement of the lookups touches a row a user owns. *)
Lemma lookupStmt_keepsManual st0 s st st' :
  lookupStmt s → keepsManual st0 st → exec s st = inr st' →
  keepsManual st0 st'.
Proof.
  destruct s as [c|new|us]; simpl.
  - intros _ Hk [= <-]. by apply delete_osm_keepsManual.
  - intros (now & country & elements & ->) Hk Hins.
    by eapply insert_osm_keepsManual.
  - intros (fs & -> & Hsrc) Hk.
    rewrite UpsertFacts.upsert_rows_eq.
    destruct (Places.batchError fs ∅); [done|]. intros [= <-].
    clear -Hsrc Hk. revert st Hk.
    induction Hsrc as [|f fs Hf _ IH]; intros st Hk; [done|].
    simpl. apply IH. by apply upserted_keepsManual.
Qed.

(** The two edge functions issue such statements only. *)
Lemma osm_serve_issues country overpass now :
  issues lookupStmt (Osm.serve country overpass now).
Proof.
  unfold Osm.serve. case_decide; [constructor|].
  destruct overpass as [m|elements]; simpl; [constructor|].
  unfold Osm.replaceByCountry. case_decide; [|constructor].
  constructor; [done|]. intros [e|]; [constructor|].
  constructor; [by exists now, country, elements|].
  intros [e|]; constructor.
Qed.

Lemma upsertBatches_issues bs :
  Forall (Forall (λ f, Places.FormattedPlace.source f = "GooglePlaces")) bs →
  issues lookupStmt (Places.upsertBatches bs).
Proof.
  induction 1 as [|b bs Hb _ IH]; simpl; [constructor|].
  constructor; [by exists b|]. intros [e|]; [constructor|done].
Qed.

Lemma places_serve_issues api req now :
  issues lookupStmt (Places.serve api req now).
Proof.
  unfold Places.serve.
  destruct (Places.formattedPlaces api req now) as [e|fs] eqn:Hfs; [constructor|].
  apply DbFacts.issues_bind.
  - rewrite UpsertFacts.upsertPlaces_eq. apply upsertBatches_issues.
    apply Forall_concat. rewrite UpsertFacts.batches_concat.
    by apply UpsertFacts.formattedPlaces_inr in Hfs as [_ ?].
  - intros [e|]; constructor.
Qed.

Lemma retryLoop_issues {R : Type} (attempt : nat → Prog (Retry.Thrown + R))
  (retries remaining i : nat) last :
  (∀ j, issues lookupStmt (attempt j)) →
  issues lookupStmt
    (Retry.retryLoop attempt (λ _, mret tt) retries remaining i last).
Proof.
  intros Hatt. revert i last.
  induction remaining as [|n IH]; intros i last; simpl; [constructor|].
  apply DbFacts.issues_bind; [apply Hatt|].
  intros [t|r]; [|constructor].
  case_decide; [constructor|]. apply IH.
Qed.

Lemma edgeLookup_issues {W R : Type} (w : World) (handler : W → Prog R)
  (body : R → string + list Service) (request : nat → Retry.Thrown + W) :
  (∀ provider, issues lookupStmt (handler provider)) →
  issues lookupStmt (edgeLookup w handler body request).
Proof.
  intros Hh. unfold edgeLookup. apply DbFacts.issues_bind.
  - apply retryLoop_issues. intros j. unfold edgeAttempt.
    case_decide; [constructor|].
    destruct (request j) as [t|provider]; [constructor|].
    apply DbFacts.issues_bind; [apply Hh|].
    intros r. destruct (body r); constructor.
  - intros [r|e]; constructor.
Qed.

Lemma lookups_keepManual (w : World) (type country : string)
  (userLocation : option (Q * Q)) (st st' : Store) o g :
  par_run st (osmLookup w country) (googleLookup w type userLocation) o g st' →
  manual_without_place_id st →
  manual_rows st' = manual_rows st ∧ manual_without_place_id st'.
Proof.
  intros Hrun Hinv.
  apply (DbFacts.par_run_invariant lookupStmt (keepsManual st) _ _ _ _ _ _
           (lookupStmt_keepsManual st) Hrun).
  - unfold osmLookup. apply edgeLookup_issues.
    intros overpass. apply osm_serve_issues.
  - unfold googleLookup. apply edgeLookup_issues.
    intros api. apply places_serve_issues.
  - by split.
Qed.

(** C3, as the code has it. The only access the aggregation itself
    makes to the store is a query; but the two lookups it starts are
    the refresh operations, and they write. A call leaves the rows
    users own as they were; it leaves the whole store as it was when
    its query fails (no lookup is started then); its internal bucket is
    read from the store as the call found it; and a call always ends. *)
Theorem searchServices_store_effect
  (w : World) (type country : string) (userLocation : option (Q * Q))
  (st st' : Store) (result : SearchResult Service) :
  searchServicesRun w type country userLocation st result st' →
  manual_without_place_id st →
  manual_rows st' = manual_rows st ∧
  manual_without_place_id st' ∧
  match selectError w with
  | Some m =>
      st' = st ∧
      result = {| internal := []; osm := []; google := [];
                  error := Some ("Database error: " +:+ m) |}
  | None =>
      internal result
      = rank 1 "Verified" <$> take 5 (Internal <$> select type country st) ∧
      error result = None
  end ∧
  ∃ result2 st2, searchServicesRun w type country userLocation st result2 st2.
Proof.
  intros Hrun Hinv.
  assert (Htotal : ∃ result2 st2,
             searchServicesRun w type country userLocation st result2 st2).
  { destruct (selectError w) as [m|] eqn:Hsel.
    - eexists _, _. by apply run_select_failed.
    - eexists _, _. apply run_lookups; [done|].
      apply DbFacts.par_run_sequential. }
  destruct Hrun as [m Hsel|o g st' Hsel Hpar].
  - rewrite Hsel. by repeat split.
  - rewrite Hsel.
    destruct (lookups_keepManual _ _ _ _ _ _ _ _ Hpar Hinv) as [H1 H2].
    split; [done|]. split; [done|]. split; [|done].
    pose proof (AggregatorFacts.searchServices_buckets
                  (Some (Internal <$> select type country st)) o g)
      as (Hi & _ & _ & He).
    split; [exact Hi|exact He].
Qed.

Lemma searchServices_store_effect_witness :
  let p := osmLookup Examples.ammanWorld "Jordan" in
  let q := googleLookup Examples.ammanWorld "clinic" Examples.ammanLocation in
  let st1 := (run p Examples.ammanStore).2 in
  manual_without_place_id Examples.ammanStore ∧
  searchServicesRun Examples.ammanWorld "clinic" "Jordan"
    Examples.ammanLocation Examples.ammanStore
    (searchServices
       {| data := Some (Internal <$> select "clinic" "Jordan" Examples.ammanStore);
          dbError := None |}
       (run p Examples.ammanStore).1 (run q st1).1)
    (run q st1).2 ∧
  manual_rows (run q st1).2 = manual_rows Examples.ammanStore.
Proof.
  cbv zeta.
  assert (Hinv : manual_without_place_id Examples.ammanStore).
  { unfold manual_without_place_id. simpl.
    apply Forall_cons_2; [intros _; reflexivity|].
    apply Forall_cons_2; [intros H; discriminate H|].
    apply Forall_nil_2. }
  assert (Hrun : searchServicesRun Examples.ammanWorld "clinic" "Jordan"
    Examples.ammanLocation Examples.ammanStore
    (searchServices
       {| data := Some (Internal <$> select "clinic" "Jordan" Examples.ammanStore);
          dbError := None |}
       (run (osmLookup Examples.ammanWorld "Jordan") Examples.ammanStore).1
       (run (googleLookup Examples.ammanWorld "clinic" Examples.ammanLocation)
            (run (osmLookup Examples.ammanWorld "Jordan") Examples.ammanStore).2).1)
    (run (googleLookup Examples.ammanWorld "clinic" Examples.ammanLocation)
         (run (osmLookup Examples.ammanWorld "Jordan") Examples.ammanStore).2).2).
  { apply run_lookups; [reflexivity|]. apply DbFacts.par_run_sequential. }
  split; [exact Hinv|]. split; [exact Hrun|].
  exact (proj1 (searchServices_store_effect _ _ _ _ _ _ _ Hrun Hinv)).
Defined.

(** A call whose Places lookup finds two places writes two rows to an
    empty store. *)
Lemma searchServices_writes_to_the_store :
  ∃ result st',
    searchServicesRun Examples.ammanWorld "clinic" "Jordan"
      Examples.ammanLocation Examples.emptyStore result st' ∧
    error result = None ∧
    length (rows st') = 2 ∧
    st' ≠ Examples.emptyStore.
Proof.
  eexists _, _. split.
  { apply run_lookups; [reflexivity|]. apply DbFacts.par_run_sequential. }
  split; [reflexivity|]. split; [vm_compute; reflexivity|].
  intros Heq. apply (f_equal (λ s, length (rows s))) in Heq.
  vm_compute in Heq. discriminate.
Qed.

End StoreEffectFacts.

(** * Part III: further properties of the code *)

(** ** The retry loop with any number of tries *)

Module RetryMore.
Import Retry.

Section traced_loop.
Context {R : Type}.
Variable attempt : nat → Traced (Thrown + R).
Variable delay : nat → Q.
Variable retries : nat.

Local Notation sleep := (λ i : nat, ([EvSleep (delay i)], tt) : Traced unit).
Local Notation loop := (retryLoop attempt sleep retries).
Local Notation traceTo := (Retry.traceTo attempt delay).

Lemma fetches_traceTo_nil (i m : nat) :
  (∀ j, fetches (attempt j).1 = []) → i ≤ m → fetches (traceTo i m) = [].
Proof.
  intros Hatt Hle. remember (m - i) as d eqn:Hd.
  revert i Hle Hd. induction d as [|d IH]; intros i Hle Hd.
  - assert (m = i) as -> by lia. rewrite RetryFacts.traceTo_self. apply Hatt.
  - rewrite RetryFacts.traceTo_step by lia.
    rewrite RetryFacts.fetches_app, Hatt. simpl.
    change (fetches (EvSleep (delay i) :: traceTo (S i) m))
      with (fetches (traceTo (S i) m)).
    apply IH; lia.
Qed.

(** The call ends at the first attempt that succeeds. *)
Lemma retryLoop_first_success (k : nat) (r : R) (last : option string) :
  k < retries →
  (∀ j, j < k → ∃ t, (attempt j).2 = inl t) →
  (attempt k).2 = inr r →
  loop retries 0 last = (traceTo 0 k, Returned r).
Proof.
  intros Hk Hfail Hok.
  destruct (RetryFacts.retryLoop_shape attempt delay retries retries 0 last)
    as (m & Hm & Htr & Hbefore & Hres); [lia|lia|].
  assert (m = k) as ->.
  { destruct (Nat.lt_trichotomy m k) as [Hlt|[->|Hgt]]; [|done|].
    - destruct (Hfail m Hlt) as [t Ht].
      destruct ((loop retries 0 last).2) as [r'|e]; [congruence|].
      destruct Hres as [-> _]. lia.
    - destruct (Hbefore k) as [t Ht]; [lia|]. congruence. }
  destruct (loop retries 0 last) as [tr res]. simpl in *. subst tr.
  destruct res as [r'|e].
  - congruence.
  - destruct Hres as (_ & t & Ht & _). congruence.
Qed.

(** When every attempt fails the call goes through all its tries and
    throws the error of the last one. *)
Lemma retryLoop_all_fail (last : option string) :
  0 < retries →
  (∀ j, j < retries → ∃ t, (attempt j).2 = inl t) →
  ∃ t, (attempt (retries - 1)).2 = inl t ∧
       loop retries 0 last = (traceTo 0 (retries - 1), Threw (Some (toError t))).
Proof.
  intros Hpos Hfail.
  destruct (RetryFacts.retryLoop_shape attempt delay retries retries 0 last)
    as (m & Hm & Htr & _ & Hres); [lia|lia|].
  destruct (loop retries 0 last) as [tr res]. simpl in *. subst tr.
  destruct res as [r'|e].
  - destruct (Hfail m) as [t Ht]; [lia|]. congruence.
  - destruct Hres as (-> & t & Ht & ->). by exists t.
Qed.

End traced_loop.

Lemma Qsum_app (l k : list Q) : (Qsum (l ++ k) == Qsum l + Qsum k)%Q.
Proof.
  induction l as [|d l IH]; simpl.
  - unfold Qsum at 2. simpl. by rewrite Qplus_0_l.
  - change (Qsum (d :: l ++ k)) with (d + Qsum (l ++ k))%Q.
    change (Qsum (d :: l)) with (d + Qsum l)%Q.
    rewrite IH. ring.
Qed.

Lemma two_pow_succ (m : nat) :
  (2 ^ Z.of_nat (S m) == 2 * 2 ^ Z.of_nat m)%Q.
Proof.
  rewrite Nat2Z.inj_succ, <- Z.add_1_l.
  rewrite Qpower_plus by done. reflexivity.
Qed.

(** The edge functions' delays double: [m] of them add up to
    [(2^m - 1) * 1000] milliseconds. *)
Lemma edge_delays_sum (m : nat) :
  (Qsum (Edge.delay <$> seq 0 m) == (2 ^ Z.of_nat m - 1) * 1000)%Q.
Proof.
  induction m as [|m IH].
  - reflexivity.
  - rewrite seq_S, fmap_app, Qsum_app, IH. simpl seq. simpl fmap.
    change (Qsum [Edge.delay m]) with (Edge.delay m + 0)%Q.
    unfold Edge.delay. rewrite two_pow_succ. ring.
Qed.

End RetryMore.

Module RetryTheorems.
Import Retry.

Section client.
Variable url : string.
Variable supabaseUrl : option string.
Variable fetch : nat → FetchOutcome.
Variable random : nat → Q.
Variable backoff : Q.

Local Notation attempt := (Client.attempt url supabaseUrl fetch).
Local Notation delay := (Client.delay random backoff).
Local Notation call := (Client.retryFetch url supabaseUrl fetch random backoff).

Lemma fetches_traceTo_all (i m : nat) :
  (∀ j, (attempt j).1 = [EvFetch j]) → i ≤ m →
  fetches (traceTo attempt delay i m) = seq i (S (m - i)).
Proof.
  intros Hatt Hle. remember (m - i) as d eqn:Hd.
  revert i Hle Hd. induction d as [|d IH]; intros i Hle Hd.
  - assert (m = i) as -> by lia. rewrite RetryFacts.traceTo_self, Hatt. done.
  - rewrite RetryFacts.traceTo_step by lia.
    rewrite RetryFacts.fetches_app, Hatt.
    change (fetches [EvFetch i] ++ fetches (EvSleep (delay i)
                                             :: traceTo attempt delay (S i) m))
      with (i :: fetches (traceTo attempt delay (S i) m)).
    rewrite IH by lia. done.
Qed.

(** X1. Whatever the number of tries, a call issues at most that many
    requests and sleeps at most one time fewer, never longer than the
    cap; with no try at all it issues no request and throws [null], and
    otherwise it never throws [null]. *)
Theorem retryFetch_any_tries (retries : nat) :
  length (fetches (call retries).1) ≤ retries ∧
  length (sleeps (call retries).1) ≤ retries - 1 ∧
  Forall (λ d, (d <= 5000)%Q) (sleeps (call retries).1) ∧
  (Qsum (sleeps (call retries).1)
   <= inject_Z (Z.of_nat (retries - 1)) * 5000)%Q ∧
  match retries with
  | 0 => call 0 = ([], Threw None)
  | S _ => (call retries).2 ≠ Threw None
  end.
Proof.
  destruct retries as [|n].
  - repeat split; done.
  - destruct (RetryFacts.retryLoop_shape attempt delay (S n) (S n) 0 None)
      as (m & Hm & Htr & _ & Hres); [lia|lia|].
    change (retryLoop _ _ (S n) (S n) 0 None) with (call (S n)) in *.
    assert (Hsl : sleeps (call (S n)).1 = delay <$> seq 0 m).
    { rewrite Htr, RetryFacts.sleeps_traceTo; [by rewrite Nat.sub_0_r| |lia].
      apply RetryFacts.client_attempt_no_sleep. }
    assert (Hcap : Forall (λ d, (d <= 5000)%Q) (sleeps (call (S n)).1)).
    { rewrite Hsl. apply Forall_fmap, Forall_forall. intros j _.
      apply RetryFacts.client_delay_capped. }
    split.
    { rewrite Htr. etransitivity;
        [apply RetryFacts.fetches_traceTo;
           [apply RetryFacts.client_attempt_one_fetch|lia]|lia]. }
    split; [rewrite Hsl, length_fmap, length_seq; lia|].
    split; [exact Hcap|]. split.
    + eapply Qle_trans; [apply (RetryFacts.Qsum_bounded 5000), Hcap|].
      apply Qmult_le_compat_r; [|by vm_compute].
      rewrite Hsl, length_fmap, length_seq. rewrite <- Zle_Qle. lia.
    + destruct (call (S n)).2 as [r|e]; [done|].
      destruct Hres as (_ & t & _ & ->). done.
Qed.

(** X2. A call returns the response of the first attempt that
    succeeds: the requests before it were issued and failed, each
    followed by its sleep, and no request is issued after it. *)
Theorem retryFetch_first_success (retries k : nat) (r : Response) :
  k < retries →
  (∀ j, j < k → ∃ t, (attempt j).2 = inl t) →
  (attempt k).2 = inr r →
  call retries = (traceTo attempt delay 0 k, Returned r) ∧
  fetch k = FetchResolved r ∧ ok r = true ∧
  fetches (call retries).1 = seq 0 (S k) ∧
  sleeps (call retries).1 = delay <$> seq 0 k.
Proof.
  intros Hk Hfail Hok.
  assert (Hcall : call retries = (traceTo attempt delay 0 k, Returned r)).
  { by apply (RetryMore.retryLoop_first_success attempt delay retries k r None). }
  destruct (RetryFacts.client_attempt_response url supabaseUrl fetch k r Hok)
    as [Hokr Hfetch].
  assert (Hconf : ∀ j, (attempt j).1 = [EvFetch j]).
  { intros j. revert Hok. unfold Client.attempt.
    repeat case_decide; simpl; done. }
  split; [done|]. split; [done|]. split; [done|]. rewrite Hcall. simpl. split.
  - rewrite fetches_traceTo_all by (done || lia). by rewrite Nat.sub_0_r.
  - rewrite RetryFacts.sleeps_traceTo; [by rewrite Nat.sub_0_r| |lia].
    apply RetryFacts.client_attempt_no_sleep.
Qed.

(** X3. Without a configured Supabase URL the client never issues a
    request, yet it still goes through all its tries, sleeping between
    them, and then throws the configuration error. *)
Theorem retryFetch_not_configured (retries : nat) :
  url ≠ "" → Js.or_string supabaseUrl None = None → 0 < retries →
  fetches (call retries).1 = [] ∧
  sleeps (call retries).1 = delay <$> seq 0 (retries - 1) ∧
  (call retries).2 = Threw (Some "Supabase URL is not configured").
Proof.
  intros Hurl Hconf Hpos.
  assert (Hatt : ∀ j, attempt j
                      = ([], inl (ErrorObject "Supabase URL is not configured"))).
  { intros j. unfold Client.attempt. by rewrite decide_False, decide_True. }
  destruct (RetryMore.retryLoop_all_fail attempt delay retries None Hpos)
    as (t & Ht & Hcall).
  { intros j _. rewrite Hatt. eauto. }
  change (retryLoop _ _ retries retries 0 None) with (call retries) in Hcall.
  rewrite Hcall. simpl. split; [|split].
  - apply RetryMore.fetches_traceTo_nil; [|lia]. intros j. by rewrite Hatt.
  - rewrite RetryFacts.sleeps_traceTo; [by rewrite Nat.sub_0_r| |lia].
    intros j. by rewrite Hatt.
  - rewrite Hatt in Ht. simpl in Ht. by injection Ht as <-.
Qed.

End client.

Lemma retryFetch_first_success_witness :
  let fetch := λ j : nat,
    if decide (j = 0) then FetchRejected (ErrorObject "Failed to fetch")
    else FetchResolved {| ok := true; status := 200; body := "{}" |} in
  1 < 3 ∧
  fetches (Client.retryFetch "https://project.example/functions/v1/osm-lookup"
             (Some "https://project.example") fetch (λ _, 1 # 2)%Q 1000 3).1
  = [0; 1].
Proof.
  cbv zeta.
  assert (Hk : 1 < 3) by lia. split; [exact Hk|].
  refine (proj1 (proj2 (proj2 (proj2
    (retryFetch_first_success "https://project.example/functions/v1/osm-lookup"
       (Some "https://project.example")
       (λ j : nat,
          if decide (j = 0) then FetchRejected (ErrorObject "Failed to fetch")
          else FetchResolved {| ok := true; status := 200; body := "{}" |})
       (λ _, 1 # 2)%Q 1000 3 1
       {| ok := true; status := 200; body := "{}" |} Hk _ _))))).
  - intros j Hj. assert (j = 0) as -> by lia.
    exists (ErrorObject "Failed to fetch"). reflexivity.
  - reflexivity.
Defined.

Lemma retryFetch_not_configured_witness :
  "https://x/functions/v1/osm-lookup" ≠ "" ∧
  Js.or_string None None = None ∧ 0 < 3 ∧
  (Client.retryFetch "https://x/functions/v1/osm-lookup" None
     (λ _, FetchResolved {| ok := true; status := 200; body := "{}" |})
     (λ _, 1 # 2)%Q 1000 3).2
  = Threw (Some "Supabase URL is not configured").
Proof.
  assert (H1 : "https://x/functions/v1/osm-lookup" ≠ "") by done.
  assert (H2 : Js.or_string None None = None) by reflexivity.
  assert (H3 : 0 < 3) by lia.
  split; [exact H1|]. split; [exact H2|]. split; [exact H3|].
  exact (proj2 (proj2 (retryFetch_not_configured
           "https://x/functions/v1/osm-lookup" None
           (λ _, FetchResolved {| ok := true; status := 200; body := "{}" |})
           (λ _, 1 # 2)%Q 1000 3 H1 H2 H3))).
Defined.

(** X4. The edge functions' copy has no cap: when all of its [n] tries
    fail it has slept 1000, 2000, 4000, ... milliseconds between them,
    [(2^(n-1) - 1) * 1000] in all, and throws the last error. *)
Theorem edge_retryFetch_all_fail (fetch : nat → FetchOutcome) (retries : nat) :
  0 < retries →
  (∀ j, j < retries → ∃ t, (Edge.attempt fetch j).2 = inl t) →
  fetches (Edge.retryFetch fetch retries).1 = seq 0 retries ∧
  sleeps (Edge.retryFetch fetch retries).1
  = Edge.delay <$> seq 0 (retries - 1) ∧
  (Qsum (sleeps (Edge.retryFetch fetch retries).1)
   == (2 ^ Z.of_nat (retries - 1) - 1) * 1000)%Q ∧
  ∃ t, (Edge.attempt fetch (retries - 1)).2 = inl t ∧
       (Edge.retryFetch fetch retries).2 = Threw (Some (toError t)).
Proof.
  intros Hpos Hfail.
  destruct (RetryMore.retryLoop_all_fail (Edge.attempt fetch) Edge.delay
              retries None Hpos Hfail) as (t & Ht & Hcall).
  change (retryLoop _ _ retries retries 0 None)
    with (Edge.retryFetch fetch retries) in Hcall.
  assert (Hsl : sleeps (Edge.retryFetch fetch retries).1
                = Edge.delay <$> seq 0 (retries - 1)).
  { rewrite Hcall. simpl.
    rewrite RetryFacts.sleeps_traceTo; [by rewrite Nat.sub_0_r|done|lia]. }
  split; [|split; [exact Hsl|split]].
  - rewrite Hcall. simpl. clear Hcall Hsl Ht Hfail.
    assert (Hgen : ∀ d i, fetches (traceTo (Edge.attempt fetch) Edge.delay i (i + d))
                          = seq i (S d)).
    { induction d as [|d IH]; intros i.
      - rewrite Nat.add_0_r, RetryFacts.traceTo_self. done.
      - rewrite RetryFacts.traceTo_step by lia.
        rewrite RetryFacts.fetches_app.
        change (fetches (Edge.attempt fetch i).1
                ++ fetches (EvSleep (Edge.delay i)
                            :: traceTo (Edge.attempt fetch) Edge.delay (S i)
                                 (i + S d)))
          with (i :: fetches (traceTo (Edge.attempt fetch) Edge.delay (S i)
                                (i + S d))).
        replace (i + S d) with (S i + d) by lia. by rewrite IH. }
    specialize (Hgen (retries - 1) 0). rewrite Nat.add_0_l in Hgen.
    rewrite Hgen. by replace (S (retries - 1)) with retries by lia.
  - rewrite Hsl. apply RetryMore.edge_delays_sum.
  - exists t. rewrite Hcall. done.
Qed.

Lemma edge_retryFetch_all_fail_witness :
  0 < 4 ∧
  sleeps (Edge.retryFetch (λ _, FetchRejected (ErrorObject "Failed to fetch")) 4).1
  = [1000; 2000; 4000]%Q.
Proof.
  assert (Hpos : 0 < 4) by lia. split; [exact Hpos|].
  refine (proj1 (proj2 (edge_retryFetch_all_fail
            (λ _, FetchRejected (ErrorObject "Failed to fetch")) 4 Hpos _))).
  intros j _. exists (ErrorObject "Failed to fetch"). reflexivity.
Defined.

End RetryTheorems.

(** ** The Places edge function: search and refresh *)

Module PlacesMore.
Import Db Places.

Local Notation key := FormattedPlace.google_place_id.

(** X5. The categories of one search share the set of seen place ids:
    the places found are those a single first-seen-wins pass over the
    concatenated [OK] results keeps, each enriched once. *)
Theorem search_is_one_dedupe_pass
  (api : GoogleApi) (lat lng radius : Js.JsValue) (country : string)
  (placeTypes : list string) (seen : gset string) :
  let results := concat (okResults api lat lng radius <$> placeTypes) in
  uniquePlaces api lat lng radius placeTypes seen
  = (Dedup.dedupe Place.place_id seen results).1 ∧
  searchPlaceTypes api lat lng radius country placeTypes seen
  = enrich api country <$> (Dedup.dedupe Place.place_id seen results).1 ∧
  NoDup (Place.place_id
           <$> searchPlaceTypes api lat lng radius country placeTypes seen).
Proof.
  cbv zeta.
  assert (Huniq : uniquePlaces api lat lng radius placeTypes seen
                  = (Dedup.dedupe Place.place_id seen
                       (concat (okResults api lat lng radius <$> placeTypes))).1).
  { revert seen. induction placeTypes as [|placeType rest IH]; intros seen.
    - done.
    - rewrite fmap_cons. cbn [concat uniquePlaces].
      rewrite DedupFacts.dedupe_app. unfold okResults at 1.
      assert (Hskip : uniquePlaces api lat lng radius rest seen
                      = (let '(k2, s2) :=
                           Dedup.dedupe Place.place_id seen
                             (concat (okResults api lat lng radius <$> rest))
                         in (k2, s2)).1).
      { rewrite IH. by destruct (Dedup.dedupe Place.place_id seen _). }
      destruct (nearbysearch api lat lng radius placeType)
        as [|status [results|]]; simpl; try exact Hskip.
      case_decide; simpl; [|exact Hskip].
      destruct (Dedup.dedupe Place.place_id seen results) as [k1 s1].
      rewrite IH.
      by destruct (Dedup.dedupe Place.place_id s1
                     (concat (okResults api lat lng radius <$> rest))). }
  split; [exact Huniq|]. split.
  - by rewrite PlacesFacts.searchPlaceTypes_enrich, Huniq.
  - rewrite PlacesFacts.searchPlaceTypes_enrich, <- list_fmap_compose.
    erewrite list_fmap_ext; [apply UpsertFacts.uniquePlaces_fresh|].
    intros _ p _. apply UpsertFacts.enrich_place_id.
Qed.

Lemma payloadError_not_cardinality f :
  payloadError f ≠ Some CardinalityViolation.
Proof.
  unfold payloadError.
  destruct (not_null (toUpsert f)) as [e|] eqn:Hn.
  - unfold toUpsert in Hn. simpl in Hn.
    destruct (FormattedPlace.address f); [done|]. by injection Hn as <-.
  - by repeat destruct (negb _).
Qed.

Lemma batchError_NoDup (batch : list FormattedPlace.t) (touched : gset string) :
  NoDup (key <$> batch) → (∀ f, f ∈ batch → key f ∉ touched) →
  batchError batch touched ≠ Some CardinalityViolation.
Proof.
  revert touched. induction batch as [|f rest IH]; intros touched Hnd Hfresh.
  - done.
  - simpl. rewrite fmap_cons in Hnd. apply NoDup_cons in Hnd as [Hf Hrest].
    pose proof (payloadError_not_cardinality f) as Hp.
    destruct (payloadError f) as [e|]; [done|].
    case_decide as Hin; [exfalso; apply (Hfresh f); [left|done]|].
    apply IH; [done|]. intros g Hg.
    assert (key g ≠ key f).
    { intros Heq. apply Hf. rewrite <- Heq. by apply list_elem_of_fmap_2. }
    assert (key g ∉ touched) by (apply Hfresh; by right).
    set_solver.
Qed.

Lemma batchesFrom_sublist {A : Type} (l : list A) (fuel i : nat) :
  Forall (λ b, b `sublist_of` l) (batchesFrom fuel i l).
Proof.
  revert i. induction fuel as [|fuel IH]; intros i; simpl; [constructor|].
  case_decide; [|constructor]. constructor; [|apply IH].
  unfold slice. etransitivity; [apply sublist_take|apply sublist_drop].
Qed.

(** X6. The records the handler upserts have pairwise distinct place
    ids, so no batch of its refresh can fail because a statement would
    touch a row twice. *)
Theorem refresh_never_touches_a_row_twice
  (api : GoogleApi) (req : Request) (now : nat)
  (formatted : list FormattedPlace.t) :
  formattedPlaces api req now = inr formatted →
  NoDup (key <$> formatted) ∧
  Forall (λ b, batchError b ∅ ≠ Some CardinalityViolation) (batches formatted) ∧
  ∀ st, (run (upsertPlaces formatted) st).1 ≠ Some CardinalityViolation.
Proof.
  intros Hfs. apply UpsertFacts.formattedPlaces_inr in Hfs as [Hnd _].
  assert (Hall : Forall (λ b, batchError b ∅ ≠ Some CardinalityViolation)
                   (batches formatted)).
  { eapply Forall_impl; [apply batchesFrom_sublist|]. simpl. intros b Hb.
    apply batchError_NoDup; [|set_solver].
    eapply sublist_NoDup; [exact Hnd|]. by apply fmap_sublist. }
  split; [done|]. split; [done|]. intros st.
  destruct (UpsertFacts.upsertBatches_run (batches formatted) st)
    as (committed & rest & mid & Hbs & _ & Hrest).
  rewrite UpsertFacts.upsertPlaces_eq.
  destruct rest as [|failed rest]; [by rewrite Hrest|].
  destruct Hrest as (e & He & ->). simpl.
  rewrite UpsertFacts.exec_upsert_eq in He.
  destruct (batchError failed ∅) as [e'|] eqn:Hb; [|done].
  injection He as <-. intros [= ->].
  rewrite Forall_forall in Hall. apply (Hall failed); [|done].
  rewrite Hbs. apply elem_of_app. right. left.
Qed.

Lemma refresh_never_touches_a_row_twice_witness :
  formattedPlaces Examples.ammanApi Examples.clinicRequest 5
  = inr Examples.ammanFormatted ∧
  NoDup (key <$> Examples.ammanFormatted).
Proof.
  assert (Hfs : formattedPlaces Examples.ammanApi Examples.clinicRequest 5
                = inr Examples.ammanFormatted) by (vm_compute; reflexivity).
  split; [exact Hfs|].
  exact (proj1 (refresh_never_touches_a_row_twice _ _ _ _ Hfs)).
Defined.

(** X7. Whatever goes wrong before the upsert (no service type, a
    country that cannot be resolved, a place without coordinates) is
    answered 500 with the store untouched; when the country lookup
    fails nothing is searched, whatever the categories would return. *)
Theorem handler_errors_before_the_store
  (api : GoogleApi) (req : Request) (now : nat) (st : Store) (e : string) :
  formattedPlaces api req now = inl e →
  run (serve api req now) st = (Err500 (ErrorThrown e), st) ∧
  (type req = "" → e = "Service type is required") ∧
  (type req ≠ "" →
   ∀ e', geocode api (Js.get (searchLocation (location req)) "lat")
                     (Js.get (searchLocation (location req)) "lng") = inl e' →
         e = e').
Proof.
  intros Hfs. split; [|split].
  - unfold serve. by rewrite Hfs.
  - intros Ht. revert Hfs. unfold formattedPlaces, searchArguments.
    rewrite decide_True by done. by intros [= <-].
  - intros Ht e' Hgeo. revert Hfs.
    unfold formattedPlaces, searchArguments, searchNearbyPlaces,
      getCountryFromCoordinates.
    rewrite decide_False by done. rewrite Hgeo. by intros [= <-].
Qed.

Lemma handler_errors_before_the_store_witness :
  formattedPlaces
    (Examples.hospitalsOnly [Examples.clinicNoGeometry; Examples.clinicB])
    Examples.clinicRequest 0
  = inl "Cannot read properties of undefined (reading 'location')" ∧
  run (serve (Examples.hospitalsOnly [Examples.clinicNoGeometry; Examples.clinicB])
         Examples.clinicRequest 0) Examples.kenyaStore
  = (Err500 (ErrorThrown
               "Cannot read properties of undefined (reading 'location')"),
     Examples.kenyaStore).
Proof.
  assert (Hfs : formattedPlaces
            (Examples.hospitalsOnly [Examples.clinicNoGeometry; Examples.clinicB])
            Examples.clinicRequest 0
          = inl "Cannot read properties of undefined (reading 'location')")
    by (vm_compute; reflexivity).
  split; [exact Hfs|].
  exact (proj1 (handler_errors_before_the_store _ _ _ Examples.kenyaStore _ Hfs)).
Defined.

Lemma batchesFrom_lookup {A : Type} (l : list A) (fuel j i : nat) :
  length l - j ≤ fuel →
  batchesFrom fuel j l !! i
  = if decide (j + batchSize * i < length l)
    then Some (take batchSize (drop (j + batchSize * i) l)) else None.
Proof.
  revert j i. induction fuel as [|fuel IH]; intros j i Hfuel;
    cbn [batchesFrom].
  - rewrite lookup_nil, decide_False by lia. done.
  - case_decide as Hj.
    + rewrite lookup_cons. destruct i as [|i].
      * rewrite Nat.mul_0_r, Nat.add_0_r, decide_True by done.
        unfold slice. by replace (j + batchSize - j) with batchSize by lia.
      * rewrite IH by (unfold batchSize; lia).
        by replace (j + batchSize + batchSize * i)
             with (j + batchSize * S i) by lia.
    + rewrite lookup_nil, decide_False by lia. done.
Qed.

(** X8. The batches are the consecutive runs of ten records: batch
    [i] holds records [10i .. 10i+9] (the last batch what is left), so
    a refresh of [n] records issues [ceil(n / 10)] statements. *)
Theorem batches_are_consecutive_tens {A : Type} (l : list A) :
  (∀ i, batches l !! i
        = if decide (10 * i < length l)
          then Some (take 10 (drop (10 * i) l)) else None) ∧
  length (batches l) = (length l + 9) / 10 ∧
  concat (batches l) = l.
Proof.
  assert (Hlookup : ∀ i, batches l !! i
            = if decide (10 * i < length l)
              then Some (take 10 (drop (10 * i) l)) else None).
  { intros i. unfold batches. rewrite batchesFrom_lookup by lia. done. }
  split; [exact Hlookup|]. split; [|apply UpsertFacts.batches_concat].
  set (n := length (batches l)).
  assert (Hhi : length l ≤ 10 * n).
  { pose proof (Hlookup n) as Hn.
    rewrite (proj2 (lookup_ge_None _ _)) in Hn by (unfold n; lia).
    case_decide; [done|lia]. }
  assert (Hlo : 0 < n → 10 * (n - 1) < length l).
  { intros Hpos. pose proof (Hlookup (n - 1)) as Hn.
    destruct (lookup_lt_is_Some_2 (batches l) (n - 1)) as [b Hb];
      [unfold n in *; lia|].
    rewrite Hb in Hn. case_decide; [done|discriminate]. }
  apply (Nat.div_unique _ 10 n (length l + 9 - 10 * n)); lia.
Qed.

Lemma formatPlaces_type type now places fs :
  formatPlaces type now places = inr fs →
  Forall (λ f, FormattedPlace.type f = type) fs.
Proof.
  revert fs. induction places as [|p places IH]; intros fs; simpl.
  - intros [= <-]. constructor.
  - unfold formatPlace. destruct (Place.geometry p) as [[a b]|]; [|done].
    destruct (formatPlaces type now places) as [e|fs']; [done|].
    intros [= <-]. constructor; [done|]. by apply IH.
Qed.




End PlacesMore.

(** ** The OSM refresh: records, success and failure *)

Module OsmMore.
Import Db Osm.

Lemma mapOsmTypeToServiceType_valid (tags : Tags.t) (t : string) :
  mapOsmTypeToServiceType tags = Some t → t ∈ service_types.
Proof.
  unfold mapOsmTypeToServiceType, service_types.
  repeat case_match; intros [= <-]; set_solver.
Qed.

Lemma toService_type_valid (country : string) (element : Element.t) :
  Service.type (toService country element) ∈ service_types.
Proof.
  simpl. destruct (mapOsmTypeToServiceType _) as [t|] eqn:Ht; simpl.
  - case_decide as Hempty; simpl.
    + unfold service_types. set_solver.
    + by apply mapOsmTypeToServiceType_valid in Ht.
  - unfold service_types. set_solver.
Qed.

(** The only check a fetched record can fail is the uniqueness of its
    OSM id. *)
Lemma insert_checks_fetched (table : list Row) (country : string)
  (now : nat) (element : Element.t) (id : nat) :
  insert_checks table (toRow now (toService country element) id)
  = if decide (Some (Service.osm_id (toService country element))
               ∈ Db.osm_id <$> table)
    then Some (UniqueViolation "services_osm_id_key") else None.
Proof.
  unfold insert_checks, type_check, check_external_ids, unique_ok.
  cbn [Db.type Db.source Db.osm_id Db.google_place_id toRow
       Service.source toService].
  rewrite (bool_decide_eq_true_2 _ (toService_type_valid country element)).
  rewrite (bool_decide_eq_true_2 ("OSM" = "OSM")) by done.
  rewrite (bool_decide_eq_true_2 (Some _ ≠ None)) by done.
  cbn [negb andb orb].
  case_decide as Hin.
  - rewrite bool_decide_eq_false_2; [done|].
    rewrite Forall_forall. intros Hall.
    apply list_elem_of_fmap in Hin as (r & Hr & Hin).
    by apply (Hall r Hin).
  - rewrite bool_decide_eq_true_2; [done|].
    apply Forall_forall. intros r Hr Heq. apply Hin.
    apply list_elem_of_fmap. by exists r.
Qed.

(** The insert of the fetched records goes through exactly when their
    OSM ids are pairwise distinct and none is in the table; when it
    does not, the error is the unique violation on [osm_id]. *)
Lemma insert_fetched (country : string) (now : nat)
  (elements : list Element.t) (st : Store) :
  (NoDup (osm_ids country elements) ∧
   (∀ k, k ∈ osm_ids country elements → Some k ∉ Db.osm_id <$> rows st) ∧
   ∃ st', insert_rows (toRow now <$> (toService country <$> elements)) st
          = inr st')
  ∨ (¬ (NoDup (osm_ids country elements) ∧
        ∀ k, k ∈ osm_ids country elements → Some k ∉ Db.osm_id <$> rows st) ∧
     insert_rows (toRow now <$> (toService country <$> elements)) st
     = inl (UniqueViolation "services_osm_id_key")).
Proof.
  revert st. induction elements as [|e rest IH]; intros st.
  - left. split; [constructor|]. split; [by intros k Hk%elem_of_nil|].
    by exists st.
  - rewrite !fmap_cons. cbn [insert_rows]. unfold osm_ids. rewrite fmap_cons.
    fold (osm_ids country rest).
    rewrite insert_checks_fetched. case_decide as Hin.
    + right. split; [|done]. intros [_ Hfresh].
      apply (Hfresh _ (list_elem_of_here _ _)), Hin.
    + set (st1 := {| rows := rows st ++ [_]; next_id := S (next_id st) |}).
      destruct (IH st1) as [(Hnd & Hfresh & st' & Hst')|[Hnot Herr]].
      * left. subst st1. cbn [rows] in Hfresh.
        split; [|split; [|by exists st']].
        -- constructor; [|done]. intros Hk. apply (Hfresh _ Hk).
           rewrite fmap_app. apply elem_of_app. right. simpl. set_solver.
        -- intros k [->|Hk]%elem_of_cons; [done|].
           intros Hin'. apply (Hfresh _ Hk).
           rewrite fmap_app. apply elem_of_app. by left.
      * right. split; [|done]. intros [Hnd Hfresh]. apply Hnot.
        apply NoDup_cons in Hnd as [Hhd Hnd]. split; [done|].
        intros k Hk. subst st1. cbn [rows]. rewrite fmap_app.
        intros [Hin'|Hin']%elem_of_app.
        -- apply (Hfresh k); [by apply list_elem_of_further|done].
        -- simpl in Hin'. apply list_elem_of_singleton in Hin'.
           injection Hin' as ->. done.
Qed.

(** The run of the handler on a non-empty fetch: the delete, then the
    insert, whose outcome decides the answer. *)
Lemma serve_fetched_run (country : string) (now : nat)
  (elements : list Element.t) (st : Store) :
  country ≠ "" → elements ≠ [] →
  run (serve country (OverpassData elements) now) st
  = match insert_rows (toRow now <$> (toService country <$> elements))
                      (delete_osm country st) with
    | inl e => (Err500 ("Failed to insert OSM services: " +:+ message e),
                delete_osm country st)
    | inr st' => (Ok200 (length elements) (toService country <$> elements),
                  st')
    end.
Proof.
  intros Hc Hne. unfold serve. case_decide; [done|].
  cbn [fetchOsmServices]. unfold replaceByCountry.
  case_decide as Hlen;
    [|destruct elements;
      [done|rewrite length_fmap in Hlen; simpl in Hlen; lia]].
  rewrite DbFacts.run_Exec. cbn [exec]. rewrite DbFacts.run_Exec. cbn [exec].
  destruct (insert_rows _ (delete_osm country st)) as [e|st']; cbn [run];
    [done|]. by rewrite length_fmap.
Qed.


(** X11. A refresh that fetched at least one element succeeds exactly
    when the fetched OSM ids are pairwise distinct and none of them is
    still in the table after the country's OSM rows were deleted. *)
Theorem refresh_succeeds_iff_ids_are_free
  (country : string) (now : nat) (elements : list Element.t) (st : Store) :
  country ≠ "" → elements ≠ [] →
  (∃ st', run (serve country (OverpassData elements) now) st
          = (Ok200 (length elements) (toService country <$> elements), st'))
  ↔ (NoDup (osm_ids country elements) ∧
     ∀ k, k ∈ osm_ids country elements →
          Some k ∉ Db.osm_id <$> rows (delete_osm country st)).
Proof.
  intros Hc Hne. rewrite (serve_fetched_run _ _ _ _ Hc Hne).
  destruct (insert_fetched country now elements (delete_osm country st))
    as [(Hnd & Hfresh & st' & Hst')|[Hnot Herr]].
  - rewrite Hst'. split; [done|]. intros _. by exists st'.
  - rewrite Herr. split; [|done]. by intros [st' [=]].
Qed.

Lemma refresh_succeeds_iff_ids_are_free_witness :
  let elements := [Examples.nairobiClinic] in
  "Kenya" ≠ "" ∧ elements ≠ [] ∧
  (NoDup (osm_ids "Kenya" elements) ∧
   ∀ k, k ∈ osm_ids "Kenya" elements →
        Some k ∉ Db.osm_id <$> rows (delete_osm "Kenya" Examples.kenyaStore)) ∧
  ∃ st', run (serve "Kenya" (OverpassData elements) 7) Examples.kenyaStore
         = (Ok200 1 [toService "Kenya" Examples.nairobiClinic], st').
Proof.
  cbv zeta.
  assert (H1 : "Kenya" ≠ "") by discriminate.
  assert (H2 : [Examples.nairobiClinic] ≠ []) by discriminate.
  assert (H3 : NoDup (osm_ids "Kenya" [Examples.nairobiClinic]) ∧
               ∀ k, k ∈ osm_ids "Kenya" [Examples.nairobiClinic] →
                    Some k ∉ Db.osm_id
                             <$> rows (delete_osm "Kenya" Examples.kenyaStore)).
  { split.
    - apply NoDup_singleton.
    - intros k Hk. apply list_elem_of_singleton in Hk. subst k.
      vm_compute. intros Hin.
      repeat (apply elem_of_cons in Hin as [Hin|Hin]; [discriminate Hin|]).
      by apply elem_of_nil in Hin. }
  split; [exact H1|]. split; [exact H2|]. split; [exact H3|].
  exact (proj2 (refresh_succeeds_iff_ids_are_free "Kenya" 7
                  [Examples.nairobiClinic] Examples.kenyaStore H1 H2) H3).
Defined.

(** X12. How a refresh fails. Without a country, or when the fetch
    fails, the answer is 500 and the store is as it was. When the
    insert fails, the answer is 500 after the country's OSM rows were
    deleted: the delete is not undone, and the country is left without
    any OSM row. *)
Theorem refresh_failures
  (country : string) (now : nat) (elements : list Element.t)
  (failure : string) (st : Store) :
  run (serve "" (OverpassData elements) now) st
  = (Err500 "Country is required", st) ∧
  (country ≠ "" →
   run (serve country (OverpassFailed failure) now) st
   = (Err500 ("Failed to fetch OSM data: " +:+ failure), st)) ∧
  (country ≠ "" → elements ≠ [] →
   ¬ (NoDup (osm_ids country elements) ∧
      ∀ k, k ∈ osm_ids country elements →
           Some k ∉ Db.osm_id <$> rows (delete_osm country st)) →
   run (serve country (OverpassData elements) now) st
   = (Err500 ("Failed to insert OSM services: "
              +:+ message (UniqueViolation "services_osm_id_key")),
      delete_osm country st) ∧
   filter (λ r, is_osm_of country r = true) (rows (delete_osm country st))
   = []).
Proof.
  split; [done|]. split.
  { intros Hc. unfold serve. by case_decide. }
  intros Hc Hne Hnot. split.
  - rewrite (serve_fetched_run _ _ _ _ Hc Hne).
    destruct (insert_fetched country now elements (delete_osm country st))
      as [(Hnd & Hfresh & _)|[_ Herr]]; [by destruct Hnot|].
    by rewrite Herr.
  - cbn [rows delete_osm]. apply DbFacts.filter_none.
    apply Forall_forall. intros r Hr.
    apply list_elem_of_filter in Hr as [Hr _]. by rewrite Hr.
Qed.

Lemma refresh_failures_witness :
  let elements := [Examples.nairobiClinic; Examples.nairobiClinic] in
  "Kenya" ≠ "" ∧ elements ≠ [] ∧
  ¬ (NoDup (osm_ids "Kenya" elements) ∧
     ∀ k, k ∈ osm_ids "Kenya" elements →
          Some k ∉ Db.osm_id <$> rows (delete_osm "Kenya" Examples.kenyaStore)) ∧
  run (serve "Kenya" (OverpassData elements) 7) Examples.kenyaStore
  = (Err500 ("Failed to insert OSM services: "
             +:+ message (UniqueViolation "services_osm_id_key")),
     delete_osm "Kenya" Examples.kenyaStore) ∧
  filter (λ r, is_osm_of "Kenya" r = true) (rows Examples.kenyaStore) ≠ [] ∧
  filter (λ r, is_osm_of "Kenya" r = true)
         (rows (delete_osm "Kenya" Examples.kenyaStore)) = [].
Proof.
  cbv zeta.
  assert (H1 : "Kenya" ≠ "") by discriminate.
  assert (H2 : [Examples.nairobiClinic; Examples.nairobiClinic] ≠ [])
    by discriminate.
  assert (H3 : ¬ (NoDup (osm_ids "Kenya"
                           [Examples.nairobiClinic; Examples.nairobiClinic]) ∧
                  ∀ k, k ∈ osm_ids "Kenya"
                             [Examples.nairobiClinic; Examples.nairobiClinic] →
                       Some k ∉ Db.osm_id
                                <$> rows (delete_osm "Kenya" Examples.kenyaStore))).
  { intros [Hnd _]. apply NoDup_cons in Hnd as [Hhd _]. apply Hhd.
    apply list_elem_of_here. }
  destruct (refresh_failures "Kenya" 7
              [Examples.nairobiClinic; Examples.nairobiClinic] ""
              Examples.kenyaStore) as (_ & _ & Hfail).
  destruct (Hfail H1 H2 H3) as [Hrun Hgone].
  split; [exact H1|]. split; [exact H2|]. split; [exact H3|].
  split; [exact Hrun|]. split; [|exact Hgone].
  vm_compute. discriminate.
Defined.

(** X13. A refresh that succeeded can be repeated: the same fetch
    right after it succeeds again, leaves the rows of every other
    provenance as they were after the first, and gives the country the
    same records in new rows, whose identities are drawn from where the
    first refresh left the counter. *)
Theorem refresh_twice
  (country : string) (now now' : nat) (elements : list Element.t)
  (st st' : Store) :
  elements ≠ [] →
  run (serve country (OverpassData elements) now) st
  = (Ok200 (length elements) (toService country <$> elements), st') →
  let fetched := toService country <$> elements in
  let others := filter (λ r, is_osm_of country r = false) (rows st) in
  next_id st' = next_id st + length elements ∧
  ∃ st'',
    run (serve country (OverpassData elements) now') st'
    = (Ok200 (length elements) fetched, st'') ∧
    rows st' = others ++ imap (λ i s, toRow now s (next_id st + i)) fetched ∧
    rows st''
    = others ++ imap (λ i s, toRow now' s (next_id st' + i)) fetched ∧
    next_id st'' = next_id st' + length elements.
Proof.
  intros Hne Hrun. cbv zeta.
  assert (Hc : country ≠ "").
  { intros ->. revert Hrun. unfold serve. by case_decide. }
  rewrite (serve_fetched_run _ _ _ _ Hc Hne) in Hrun.
  destruct (insert_fetched country now elements (delete_osm country st))
    as [(Hnd & Hfresh & st1 & Hins)|[_ Herr]];
    [|by rewrite Herr in Hrun].
  rewrite Hins in Hrun. injection Hrun as ->.
  apply DbFacts.insert_rows_inr in Hins as [Hrows Hnext].
  rewrite !length_fmap in Hnext. cbn [rows next_id delete_osm] in Hrows, Hnext.
  rewrite imap_fmap in Hrows.
  assert (Hothers : Forall (λ r, is_osm_of country r = false)
                      (filter (λ r, is_osm_of country r = false) (rows st))).
  { apply Forall_forall. intros r Hr.
    by apply list_elem_of_filter in Hr as [? _]. }
  assert (Hdel : rows (delete_osm country st')
                 = filter (λ r, is_osm_of country r = false) (rows st)).
  { cbn [rows delete_osm]. rewrite Hrows, filter_app.
    rewrite (DbFacts.filter_all _ (filter _ (rows st))) by exact Hothers.
    rewrite (DbFacts.filter_none _ (imap _ _)); [by rewrite app_nil_r|].
    apply Forall_forall. intros r Hr.
    apply elem_of_lookup_imap in Hr as (i & s & -> & Hs).
    apply list_lookup_fmap_Some in Hs as (e & -> & _).
    unfold compose. rewrite OsmFacts.toRow_is_osm_of. done. }
  split; [exact Hnext|].
  rewrite (serve_fetched_run _ _ _ _ Hc Hne).
  destruct (insert_fetched country now' elements (delete_osm country st'))
    as [(_ & _ & st'' & Hins')|[Hnot _]].
  - rewrite Hins'. exists st''. split; [done|]. split; [exact Hrows|].
    apply DbFacts.insert_rows_inr in Hins' as [Hrows' Hnext'].
    rewrite !length_fmap in Hnext'. cbn [next_id delete_osm] in Hrows', Hnext'.
    rewrite Hdel, imap_fmap in Hrows'. done.
  - destruct Hnot. split; [done|]. intros k Hk. rewrite Hdel.
    by apply Hfresh.
Qed.

Lemma refresh_twice_witness :
  let elements := [Examples.nairobiClinic] in
  let st' := (run (serve "Kenya" (OverpassData elements) 7)
                  Examples.kenyaStore).2 in
  elements ≠ [] ∧
  run (serve "Kenya" (OverpassData elements) 7) Examples.kenyaStore
  = (Ok200 1 [toService "Kenya" Examples.nairobiClinic], st') ∧
  next_id st' = 4 ∧
  ∃ st'',
    run (serve "Kenya" (OverpassData elements) 8) st'
    = (Ok200 1 [toService "Kenya" Examples.nairobiClinic], st'') ∧
    rows st''
    = filter (λ r, is_osm_of "Kenya" r = false) (rows Examples.kenyaStore)
      ++ [toRow 8 (toService "Kenya" Examples.nairobiClinic) 4].
Proof.
  cbv zeta.
  assert (H1 : [Examples.nairobiClinic] ≠ []) by discriminate.
  assert (H2 : run (serve "Kenya" (OverpassData [Examples.nairobiClinic]) 7)
                   Examples.kenyaStore
               = (Ok200 (length [Examples.nairobiClinic])
                    (toService "Kenya" <$> [Examples.nairobiClinic]),
                  (run (serve "Kenya" (OverpassData [Examples.nairobiClinic]) 7)
                       Examples.kenyaStore).2))
    by (vm_compute; reflexivity).
  destruct (refresh_twice "Kenya" 7 8 [Examples.nairobiClinic]
              Examples.kenyaStore _ H1 H2)
    as (Hnext & st'' & Hrun & _ & Hrows & _).
  split; [exact H1|]. split; [exact H2|].
  split; [vm_compute; reflexivity|].
  exists st''. split; [exact Hrun|].
  rewrite Hrows. f_equal.
Defined.

End OsmMore.

(** ** The aggregator and its lookups *)

Module AggregatorMore.
Import Db Aggregator.

Lemma par_run_Ret {A B : Type} (a o : A) (b g : B) (st st' : Store) :
  par_run st (Ret a) (Ret b) o g st' → st' = st ∧ o = a ∧ g = b.
Proof.
  unfold par_run. intros Hrun.
  apply rtc_inv in Hrun as [Heq|(c & Hstep & _)].
  - by injection Heq as -> -> ->.
  - inversion Hstep.
Qed.

Lemma returns_bind {A B : Type} (Q : A → Prop) (Q' : B → Prop)
  (f : A → Prog B) (p : Prog A) :
  returns Q p → (∀ a, Q a → returns Q' (f a)) → returns Q' (bind f p).
Proof.
  intros Hp Hf. induction Hp as [r Hr|s k Hk IH]; simpl.
  - by apply Hf.
  - constructor. intros e. apply IH.
Qed.

Lemma returns_impl {A : Type} (Q Q' : A → Prop) (p : Prog A) :
  returns Q p → (∀ a, Q a → Q' a) → returns Q' p.
Proof.
  intros Hp Himpl. induction Hp as [r Hr|s k Hk IH]; constructor; auto.
Qed.

(** What two programs may end with, they end with under any
    interleaving. *)
Lemma par_step_returns {A B : Type} (Qa : A → Prop) (Qb : B → Prop) :
  ∀ c c' : Store * Prog A * Prog B,
    rtc par_step c c' →
    returns Qa c.1.2 → returns Qb c.2 →
    returns Qa c'.1.2 ∧ returns Qb c'.2.
Proof.
  intros c c' Hrun.
  induction Hrun as [c|c1 c2 c3 Hstep _ IH]; [done|].
  intros Hp Hq. apply IH; clear IH;
    destruct Hstep as [st st' s k q Hexec|st e s k q Hexec
                      |st st' s k p Hexec|st e s k p Hexec]; simpl in *;
    try done;
    try (inversion Hp; subst; by eauto);
    try (inversion Hq; subst; by eauto).
Qed.

Lemma par_run_returns {A B : Type} (Qa : A → Prop) (Qb : B → Prop)
  (p : Prog A) (q : Prog B) (a : A) (b : B) (st st' : Store) :
  par_run st p q a b st' → returns Qa p → returns Qb q → Qa a ∧ Qb b.
Proof.
  intros Hrun Hp Hq.
  destruct (par_step_returns Qa Qb _ _ Hrun Hp Hq) as [Ha Hb].
  simpl in Ha, Hb. inversion Ha; subst. inversion Hb; subst. done.
Qed.

Lemma retryLoop_returns {R : Type} (Q : R → Prop)
  (attempt : nat → Prog (Retry.Thrown + R)) (retries remaining i : nat) last :
  (∀ j, returns (λ r, match r with inr b => Q b | inl _ => True end)
                (attempt j)) →
  returns (λ r, match r with
                | Retry.Returned b => Q b
                | Retry.Threw _ => True
                end)
    (Retry.retryLoop attempt (λ _, mret tt) retries remaining i last).
Proof.
  intros Hatt. revert i last.
  induction remaining as [|n IH]; intros i last; simpl; [by constructor|].
  eapply returns_bind; [apply Hatt|].
  intros [t|r] Hr; [|by constructor].
  case_decide; [by constructor|]. apply IH.
Qed.

(** A lookup answers with what its edge function answered at one of
    the attempts, or not at all. *)
Lemma edgeLookup_returns {W R : Type} (Q : list Service → Prop) (w : World)
  (handler : W → Prog R) (body : R → string + list Service)
  (request : nat → Retry.Thrown + W) :
  (∀ provider,
     returns (λ r, ∀ b, body r = inr b → Q b) (handler provider)) →
  returns (λ l, match l with
                | LookupThrew => True
                | LookupJson services => ∃ b, services = Some b ∧ Q b
                end)
    (edgeLookup w handler body request).
Proof.
  intros Hh. unfold edgeLookup.
  eapply returns_bind.
  - apply (retryLoop_returns Q). intros j. unfold edgeAttempt.
    case_decide; [by constructor|].
    destruct (request j) as [t|provider]; [by constructor|].
    eapply returns_bind; [apply Hh|].
    intros r Hr. destruct (body r) as [e|b] eqn:Hb; constructor; [done|].
    by apply Hr.
  - intros [b|e] Hb; constructor; [|done]. by exists b.
Qed.

Lemma edgeLookup_unreachable {W R : Type} (w : World) (handler : W → Prog R)
  (body : R → string + list Service) (request : nat → Retry.Thrown + W) :
  Js.or_string (supabaseUrl w) None = None
  ∨ (∀ i, i < 3 → ∃ t, request i = inl t) →
  edgeLookup w handler body request = Ret LookupThrew.
Proof.
  intros Hlost.
  assert (Hatt : ∀ i, i < 3 →
            ∃ t, edgeAttempt w handler body request i = Ret (inl t)).
  { intros i Hi. unfold edgeAttempt. case_decide as Hcfg; [by eexists|].
    destruct Hlost as [Hcfg'|Hlost]; [done|].
    destruct (Hlost i Hi) as [t ->]. by eexists. }
  unfold edgeLookup. cbn [Retry.retryLoop].
  destruct (Hatt 0 ltac:(lia)) as [t0 ->].
  destruct (Hatt 1 ltac:(lia)) as [t1 ->].
  destruct (Hatt 2 ltac:(lia)) as [t2 ->].
  reflexivity.
Qed.

Lemma osm_serve_returns (country : string) (overpass : Osm.Overpass)
  (now : nat) :
  returns (λ r, ∀ b, osmBody r = inr b →
                     Forall (λ s, ∃ o, s = FromOsm o
                                       ∧ Osm.Service.source o = "OSM"
                                       ∧ Osm.Service.country o = country) b)
    (Osm.serve country overpass now).
Proof.
  assert (Hok : ∀ n elements b,
            osmBody (Osm.Ok200 n (Osm.toService country <$> elements)) = inr b →
            Forall (λ s, ∃ o, s = FromOsm o
                              ∧ Osm.Service.source o = "OSM"
                              ∧ Osm.Service.country o = country) b).
  { intros n elements b [= <-]. apply Forall_forall. intros s Hs.
    apply list_elem_of_fmap in Hs as (o & -> & Ho).
    apply list_elem_of_fmap in Ho as (e & -> & _). by exists (Osm.toService country e). }
  unfold Osm.serve. case_decide; [by constructor|].
  destruct overpass as [m|elements]; cbn [Osm.fetchOsmServices];
    [by constructor|].
  unfold Osm.replaceByCountry. case_decide.
  - constructor. intros [e|]; [by constructor|].
    constructor. intros [e|]; [by constructor|].
    constructor. apply Hok.
  - constructor. apply Hok.
Qed.

Lemma places_serve_returns (api : Places.GoogleApi) (req : Places.Request)
  (now : nat) :
  returns (λ r, ∀ b, googleBody r = inr b →
                     Forall (λ s, ∃ f, s = FromGoogle f
                                       ∧ Places.FormattedPlace.source f
                                         = "GooglePlaces"
                                       ∧ Places.FormattedPlace.type f
                                         = Places.type req) b)
    (Places.serve api req now).
Proof.
  unfold Places.serve.
  destruct (Places.formattedPlaces api req now) as [e|fs] eqn:Hfs;
    [by constructor|].
  assert (Hfs' : Forall (λ f, Places.FormattedPlace.source f = "GooglePlaces"
                              ∧ Places.FormattedPlace.type f = Places.type req)
                        fs).
  { pose proof (UpsertFacts.formattedPlaces_inr _ _ _ _ Hfs) as [_ Hsrc].
    revert Hfs. unfold Places.formattedPlaces, Places.searchArguments.
    case_decide; [done|].
    destruct (Places.searchNearbyPlaces _ _ _ _) as [e|places]; [done|].
    intros Hfmt. apply PlacesMore.formatPlaces_type in Hfmt.
    apply Forall_and. by split. }
  eapply returns_bind with (Q := λ _, True).
  - clear. generalize (Places.upsertPlaces fs). intros p.
    induction p as [r|s k IH]; constructor; done.
  - intros [e|] _; constructor; [done|].
    intros b [= <-]. apply Forall_forall. intros s Hs.
    apply list_elem_of_fmap in Hs as (f & -> & Hf).
    rewrite Forall_forall in Hfs'. destruct (Hfs' f Hf) as [? ?].
    by exists f.
Qed.

(** X14. When no request reaches the edge functions (the client is not
    configured, or all three attempts of both lookups are lost), a
    call whose query succeeds leaves the store as it was and answers
    with rows of the store alone: the first five manual rows of the
    type and country, no OSM or Places record, and no error. *)
Theorem lost_lookups_leave_the_store
  (w : World) (type country : string) (userLocation : option (Q * Q))
  (st st' : Store) (result : SearchResult Service) :
  selectError w = None → unreachable w →
  searchServicesRun w type country userLocation st result st' →
  st' = st ∧
  result = {| internal := rank 1 "Verified"
                            <$> take 5 (Internal <$> select type country st);
              osm := []; google := []; error := None |}.
Proof.
  intros Hsel Hlost Hrun.
  destruct Hrun as [m Hsel'|o g st' _ Hpar]; [congruence|].
  unfold osmLookup, googleLookup in Hpar.
  rewrite !edgeLookup_unreachable in Hpar.
  - apply par_run_Ret in Hpar as (-> & -> & ->). split; [done|].
    pose proof (AggregatorFacts.searchServices_buckets
                  (Some (Internal <$> select type country st))
                  LookupThrew LookupThrew) as (Hi & Ho & Hg & He).
    destruct (searchServices _ _ _) as [ri ro rg re]. simpl in *.
    rewrite take_nil in Ho, Hg. by subst.
  - destruct Hlost as [Hcfg|Hlost]; [by left|right].
    intros i Hi. by destruct (Hlost i Hi).
  - destruct Hlost as [Hcfg|Hlost]; [by left|right].
    intros i Hi. by destruct (Hlost i Hi).
Qed.

Lemma lost_lookups_leave_the_store_witness :
  let w := {| supabaseUrl := Some "";
              selectError := None;
              osmRequest := osmRequest Examples.ammanWorld;
              googleRequest := googleRequest Examples.ammanWorld;
              clock := 5 |} in
  selectError w = None ∧ unreachable w ∧
  ∃ result,
    searchServicesRun w "clinic" "Jordan" Examples.ammanLocation
      Examples.ammanStore result Examples.ammanStore ∧
    osm result = [] ∧ google result = [] ∧ error result = None.
Proof.
  cbv zeta.
  set (w := {| supabaseUrl := Some "";
               selectError := None;
               osmRequest := osmRequest Examples.ammanWorld;
               googleRequest := googleRequest Examples.ammanWorld;
               clock := 5 |}).
  assert (H1 : selectError w = None) by reflexivity.
  assert (H2 : unreachable w) by (left; reflexivity).
  assert (Hrun : searchServicesRun w "clinic" "Jordan" Examples.ammanLocation
            Examples.ammanStore
            (searchServices
               {| data := Some (Internal
                                <$> select "clinic" "Jordan" Examples.ammanStore);
                  dbError := None |}
               (run (osmLookup w "Jordan") Examples.ammanStore).1
               (run (googleLookup w "clinic" Examples.ammanLocation)
                    (run (osmLookup w "Jordan") Examples.ammanStore).2).1)
            (run (googleLookup w "clinic" Examples.ammanLocation)
                 (run (osmLookup w "Jordan") Examples.ammanStore).2).2).
  { apply run_lookups; [reflexivity|]. apply DbFacts.par_run_sequential. }
  destruct (lost_lookups_leave_the_store w _ _ _ _ _ _ H1 H2 Hrun)
    as [Hst Hres].
  split; [exact H1|]. split; [exact H2|].
  eexists. split; [rewrite <- Hst at 2; exact Hrun|].
  rewrite Hres. repeat split.
Defined.

(** X15. Whatever the interleaving of the two lookups, every bucket
    holds records of its own source only: the internal bucket holds
    manual rows of the requested type and country that were in the
    store when the call began, the OSM bucket holds records the OSM
    function made for the requested country, and the Places bucket
    holds records the Places function made for the requested type. *)
Theorem buckets_hold_their_own_source
  (w : World) (type country : string) (userLocation : option (Q * Q))
  (st st' : Store) (result : SearchResult Service) :
  searchServicesRun w type country userLocation st result st' →
  (∀ r, r ∈ internal result →
        priority r = 1%Z ∧ badge r = "Verified" ∧
        ∃ row, service r = Internal row ∧ row ∈ rows st ∧
               Db.source row = "manual" ∧ Db.type row = type ∧
               Db.country row = Some country) ∧
  (∀ r, r ∈ osm result →
        priority r = 2%Z ∧ badge r = "OSM" ∧
        ∃ o, service r = FromOsm o ∧ Osm.Service.source o = "OSM" ∧
             Osm.Service.country o = country) ∧
  (∀ r, r ∈ google result →
        priority r = 3%Z ∧ badge r = "GooglePlaces" ∧
        ∃ f, service r = FromGoogle f ∧
             Places.FormattedPlace.source f = "GooglePlaces" ∧
             Places.FormattedPlace.type f = type).
Proof.
  intros Hrun.
  destruct Hrun as [m Hsel|o g st' Hsel Hpar].
  { unfold searchServices. simpl.
    split; [|split]; intros r Hr; by apply elem_of_nil in Hr. }
  pose proof (AggregatorFacts.searchServices_buckets
                (Some (Internal <$> select type country st)) o g)
    as (Hi & Ho & Hg & _). cbv zeta in Hi, Ho, Hg.
  rewrite Hi, Ho, Hg. clear Hi Ho Hg.
  eapply par_run_returns in Hpar as [HQo HQg];
    [|unfold osmLookup; apply edgeLookup_returns;
      intros overpass; apply osm_serve_returns
     |unfold googleLookup; apply edgeLookup_returns;
      intros api; apply places_serve_returns].
  split; [|split].
  - intros r Hr. apply list_elem_of_fmap in Hr as (s & -> & Hs).
    split; [done|]. split; [done|].
    apply subseteq_take in Hs. simpl in Hs.
    apply list_elem_of_fmap in Hs as (row & -> & Hrow).
    apply list_elem_of_filter in Hrow as [Hsel' Hrow].
    unfold selected in Hsel'. apply andb_prop in Hsel' as [H12 H3].
    apply andb_prop in H12 as [H1 H2].
    apply bool_decide_eq_true_1 in H1, H2, H3.
    by exists row.
  - intros r Hr. apply list_elem_of_fmap in Hr as (s & -> & Hs).
    split; [done|]. split; [done|].
    apply subseteq_take in Hs.
    destruct o as [|services]; simpl in Hs; [by apply elem_of_nil in Hs|].
    destruct HQo as (b & -> & Hb). simpl in Hs.
    rewrite Forall_forall in Hb. destruct (Hb s Hs) as (x & -> & ? & ?).
    by exists x.
  - intros r Hr. apply list_elem_of_fmap in Hr as (s & -> & Hs).
    split; [done|]. split; [done|].
    apply subseteq_take in Hs.
    destruct g as [|services]; simpl in Hs; [by apply elem_of_nil in Hs|].
    destruct HQg as (b & -> & Hb). simpl in Hs.
    rewrite Forall_forall in Hb. destruct (Hb s Hs) as (x & -> & ? & ?).
    exists x. by destruct userLocation as [[a c]|].
Qed.

Lemma buckets_hold_their_own_source_witness :
  let p := osmLookup Examples.ammanWorld "Jordan" in
  let q := googleLookup Examples.ammanWorld "clinic" Examples.ammanLocation in
  let st1 := (run p Examples.ammanStore).2 in
  let result :=
    searchServices
      {| data := Some (Internal <$> select "clinic" "Jordan" Examples.ammanStore);
         dbError := None |}
      (run p Examples.ammanStore).1 (run q st1).1 in
  searchServicesRun Examples.ammanWorld "clinic" "Jordan"
    Examples.ammanLocation Examples.ammanStore result (run q st1).2 ∧
  google result ≠ [] ∧
  ∀ r, r ∈ google result →
       ∃ f, service r = FromGoogle f ∧
            Places.FormattedPlace.type f = "clinic".
Proof.
  cbv zeta.
  assert (Hrun : searchServicesRun Examples.ammanWorld "clinic" "Jordan"
    Examples.ammanLocation Examples.ammanStore
    (searchServices
       {| data := Some (Internal <$> select "clinic" "Jordan" Examples.ammanStore);
          dbError := None |}
       (run (osmLookup Examples.ammanWorld "Jordan") Examples.ammanStore).1
       (run (googleLookup Examples.ammanWorld "clinic" Examples.ammanLocation)
            (run (osmLookup Examples.ammanWorld "Jordan") Examples.ammanStore).2).1)
    (run (googleLookup Examples.ammanWorld "clinic" Examples.ammanLocation)
         (run (osmLookup Examples.ammanWorld "Jordan") Examples.ammanStore).2).2).
  { apply run_lookups; [reflexivity|]. apply DbFacts.par_run_sequential. }
  destruct (buckets_hold_their_own_source _ _ _ _ _ _ _ Hrun)
    as (_ & _ & Hg).
  split; [exact Hrun|]. split; [vm_compute; discriminate|].
  intros r Hr. destruct (Hg r Hr) as (_ & _ & f & Hf & _ & Ht).
  by exists f.
Defined.

(** X16. The request the client sends for a search reaches the Places
    search as follows: without a user location the search is centred
    on null island with radius 50000; with one it is centred there with
    radius 5000. The client always names a radius, so the function's
    own default is not what decides it. Without a type the function
    refuses the request before any search. *)
Theorem client_request_at_the_handler
  (type : string) (userLocation : option (Q * Q)) :
  (type ≠ "" →
   Places.searchArguments (googleRequestBody type userLocation)
   = inr (match userLocation with
          | Some (lat, lng) =>
              Js.JObject [("lat", Js.JNumber lat); ("lng", Js.JNumber lng)]
          | None => Places.nullIsland
          end,
          type,
          Js.JNumber (if userLocation then 5000 else 50000))) ∧
  Places.searchArguments (googleRequestBody "" userLocation)
  = inl "Service type is required".
Proof.
  split.
  - intros Htype. unfold Places.searchArguments.
    destruct userLocation as [[lat lng]|]; simpl;
      (case_decide; [done|]); reflexivity.
  - by destruct userLocation as [[lat lng]|].
Qed.

Lemma client_request_at_the_handler_witness :
  "clinic" ≠ "" ∧
  Places.searchArguments (googleRequestBody "clinic" Examples.ammanLocation)
  = inr (Examples.amman, "clinic", Js.JNumber 5000) ∧
  Places.searchArguments (googleRequestBody "clinic" None)
  = inr (Places.nullIsland, "clinic", Js.JNumber 50000).
Proof.
  assert (H : "clinic" ≠ "") by discriminate.
  split; [exact H|]. split.
  - exact (proj1 (client_request_at_the_handler "clinic"
                    Examples.ammanLocation) H).
  - exact (proj1 (client_request_at_the_handler "clinic" None) H).
Defined.

End AggregatorMore.

(** ** Location detection *)

Module LocationFacts.
Import Location.

Lemma append_assoc (s1 s2 s3 : string) :
  (s1 +:+ s2) +:+ s3 = s1 +:+ (s2 +:+ s3).
Proof.
  induction s1 as [|a s1 IH]; [done|].
  change (String a ((s1 +:+ s2) +:+ s3) = String a (s1 +:+ (s2 +:+ s3))).
  by rewrite IH.
Qed.

Lemma or_string_Some (a b : option string) (s : string) :
  Js.or_string a b = Some s → b = None → s ≠ "".
Proof.
  unfold Js.or_string. intros H ->.
  destruct a as [x|]; [|done]. case_decide; [done|]. by injection H as <-.
Qed.

Lemma countryIsLookup_Some countryIs restCountries c :
  countryIsLookup countryIs restCountries = Some c → c ≠ "".
Proof.
  unfold countryIsLookup. intros H.
  destruct countryIs as [t|dc]; [done|].
  destruct (Js.or_string dc None) as [code|]; [|done].
  destruct (restCountries code) as [t|common]; [done|].
  by eapply or_string_Some.
Qed.

Lemma reverseGeocode_inr answer c :
  reverseGeocode answer = inr c → c ≠ "".
Proof.
  unfold reverseGeocode. intros H.
  destruct answer as [t|data]; [done|].
  destruct (negb _ || _); [done|].
  destruct (Js.or_string (Body.country data) None) as [c'|] eqn:Hc; [|done].
  injection H as <-. by eapply or_string_Some.
Qed.

Lemma locate_inr position url key countryIs restCountries getLocation c :
  locate position url key countryIs restCountries getLocation = inr c →
  c ≠ "".
Proof.
  unfold locate. intros H.
  destruct position as [t|[lat lng]]; [done|].
  repeat case_decide; try done.
  destruct (countryIsLookup countryIs restCountries) as [c'|] eqn:Hc.
  - injection H as <-. by eapply countryIsLookup_Some.
  - by eapply reverseGeocode_inr.
Qed.

(** X17. [detectLocation] never throws and its answer is one of two
    kinds: a non-empty country with no error, or the empty country
    with an error message that asks for a manual selection. *)
Theorem detectLocation_country_or_error
  (position : Retry.Thrown + (Q * Q)) (url key : option string)
  (countryIs : Retry.Thrown + option string)
  (restCountries : string → Retry.Thrown + option string)
  (getLocation : Q → Q → Retry.Thrown + Body.t) :
  let r := detectLocation position url key countryIs restCountries
             getLocation in
  (country r ≠ "" ∧ error r = None)
  ∨ (country r = "" ∧
     ∃ m, error r = Some (m +:+ "Please select your country manually.")).
Proof.
  cbv zeta. unfold detectLocation.
  destruct (locate _ _ _ _ _ _) as [[m|]|c] eqn:Hl.
  - right. split; [done|].
    exists ("Unable to detect location automatically: " +:+ m +:+ ". ").
    cbn [error]. f_equal. by rewrite !append_assoc.
  - right. split; [done|]. by exists "Location detection failed. ".
  - left. split; [|done]. simpl. by eapply locate_inr.
Qed.

(** X18. The order of the sources. Without a position the call fails
    whatever the lookups would answer, although the first lookup does
    not use the position; with a position and the configuration, a
    name from the first source is the answer whatever the fallback
    would say; and the fallback decides exactly when the first source
    gives no name. *)
Theorem detectLocation_source_order
  (t : Retry.Thrown) (latitude longitude : Q) (url key : option string)
  (countryIs : Retry.Thrown + option string)
  (restCountries : string → Retry.Thrown + option string)
  (getLocation getLocation' : Q → Q → Retry.Thrown + Body.t) :
  country (detectLocation (inl t) url key countryIs restCountries getLocation)
  = "" ∧
  (Js.or_string url None ≠ None → Js.or_string key None ≠ None →
   let here := inr (latitude, longitude) in
   (∀ c, countryIsLookup countryIs restCountries = Some c →
         detectLocation here url key countryIs restCountries getLocation
         = {| country := c; error := None |}) ∧
   (countryIsLookup countryIs restCountries = None →
    getLocation latitude longitude = getLocation' latitude longitude →
    detectLocation here url key countryIs restCountries getLocation
    = detectLocation here url key (inl t) restCountries getLocation')).
Proof.
  split.
  { unfold detectLocation, locate. by destruct t. }
  intros Hurl Hkey. cbv zeta. split.
  - intros c Hc. unfold detectLocation, locate.
    repeat case_decide; try done. by rewrite Hc.
  - intros Hnone Hsame. unfold detectLocation, locate.
    repeat case_decide; try done. rewrite Hnone, Hsame. done.
Qed.

Lemma detectLocation_source_order_witness :
  let restCountries := λ code : string,
    if decide (code = "JO") then inr (Some "Jordan")
    else inl (Retry.ErrorObject "HTTP error! status: 404, body: ") in
  let down := λ _ _ : Q,
    inl (Retry.ErrorObject "Failed to fetch") : Retry.Thrown + Body.t in
  Js.or_string (Some "https://project.example") None ≠ None ∧
  Js.or_string (Some "anon-key") None ≠ None ∧
  countryIsLookup (inr (Some "JO")) restCountries = Some "Jordan" ∧
  detectLocation (inr (3195 # 100, 3593 # 100)%Q)
    (Some "https://project.example") (Some "anon-key")
    (inr (Some "JO")) restCountries down
  = {| country := "Jordan"; error := None |}.
Proof.
  cbv zeta.
  assert (H1 : Js.or_string (Some "https://project.example") None ≠ None)
    by discriminate.
  assert (H2 : Js.or_string (Some "anon-key") None ≠ None) by discriminate.
  split; [exact H1|]. split; [exact H2|]. split; [reflexivity|].
  refine (proj1 (proj2 (detectLocation_source_order Retry.OtherValue
                          (3195 # 100) (3593 # 100) _ _ _ _ _
                          (λ _ _, inl Retry.OtherValue)) H1 H2)
            "Jordan" _).
  reflexivity.
Defined.

End LocationFacts.

(** ** The unified lookup *)

Module UnifiedFacts.
Import Db Unified.


(** X20. The unified lookup and the client's aggregator read the
    store differently: the unified lookup returns the rows of the type
    and country from every source, the aggregator only the manual ones
    among them, in the same order. *)
Theorem aggregator_reads_the_manual_rows_of_the_unified_lookup
  (type country : string) (st : Store) :
  Aggregator.select type country st
  = filter (λ r, is_manual r = true) (Unified.select type country st) ∧
  (∀ r, r ∈ Unified.select type country st →
        r ∈ Aggregator.select type country st ∨ Db.source r ≠ "manual") ∧
  ∀ r, r ∈ rows st → Db.type r = type → Db.country r = Some country →
       r ∈ Unified.select type country st.
Proof.
  assert (Hsel : ∀ r, Aggregator.selected type country r = true
                      ↔ is_manual r = true ∧ selected type country r = true).
  { intros r. unfold Aggregator.selected, selected, is_manual.
    rewrite !andb_true_iff. tauto. }
  split; [|split].
  - unfold Aggregator.select, select. rewrite list_filter_filter.
    apply list_filter_iff. intros r. apply Hsel.
  - intros r Hr.
    destruct (decide (Db.source r = "manual")) as [Hm|Hm]; [left|by right].
    unfold Aggregator.select, select in *.
    apply list_elem_of_filter in Hr as [Hr Hin].
    apply list_elem_of_filter. split; [|done].
    apply Hsel. split; [|done]. by apply bool_decide_eq_true_2.
  - intros r Hin Ht Hc. apply list_elem_of_filter. split; [|done].
    unfold selected. by rewrite !bool_decide_eq_true_2.
Qed.

End UnifiedFacts.
